(** * Guess_Number_AI: a shallow embedding of [main.py]

    The program is a solver for the four-digit "aAbB" guessing game.  This
    file embeds the three classes of [main.py] ([GuessNumberChecker],
    [GuessNumberTree], [GuessNumberAI]) and proves properties of them.

    Conventions of the embedding:
    - a Python [str] is a [string]; each [ascii] is read as one code point
      below U+0100 (the Latin-1 block), so [len], indexing and [in] work on
      code points exactly as in Python;
    - a Python [int] that only counts upwards from 0 is a [nat];
    - a Python [set] of [str] is a [gset string]; iteration over a set is
      iteration over [elements], and everything proved below is independent
      of that order;
    - an uncaught Python exception is the [Raise] case of [res];
    - mutable attributes of [self] are fields of a record that is passed
      in and returned. *)

From Stdlib Require Import String Ascii List Arith Lia DecimalString.
From stdpp Require Import base tactics option list sets gmap strings sorting.

(** ** Exceptions *)

Inductive exn := IndexError | ValueError | KeyError | StopIteration.

Inductive res (A : Type) : Type :=
| Ok (a : A)
| Raise (e : exn).
Arguments Ok {A} a.
Arguments Raise {A} e.

#[global] Instance res_ret : MRet res := @Ok.
#[global] Instance res_bind : MBind res := λ A B f m,
  match m with Ok a => f a | Raise e => Raise e end.

(** A [for x in l: acc = f(acc, x)] loop whose body may raise. *)
Fixpoint for_each {A B : Type} (f : B → A → res B) (l : list A) (acc : B) : res B :=
  match l with
  | [] => Ok acc
  | x :: l' => acc' ← f acc x; for_each f l' acc'
  end.

(** ** Python built-ins on [str] and [list] *)

(** [s[i]] for [i >= 0]. *)
Definition getitem (s : string) (i : nat) : res ascii :=
  match String.get i s with
  | Some c => Ok c
  | None => Raise IndexError
  end.

(** [c in s] for a one-character string [c]. *)
Fixpoint char_in (c : ascii) (s : string) : bool :=
  match s with
  | EmptyString => false
  | String d s' => Ascii.eqb c d || char_in c s'
  end.

(** [s[n:]]. *)
Fixpoint slice_from (n : nat) (s : string) : string :=
  match n, s with
  | 0, _ => s
  | S n', String _ s' => slice_from n' s'
  | S _, EmptyString => EmptyString
  end.

(** The ten ASCII digits. *)
Definition is_digit (c : ascii) : bool :=
  (48 <=? nat_of_ascii c) && (nat_of_ascii c <=? 57).

(** The code points below U+0100 whose Unicode Numeric_Type is Decimal,
    Digit or Numeric: the ASCII digits, the superscripts U+00B2, U+00B3,
    U+00B9 and the vulgar fractions U+00BC..U+00BE. *)
Definition numeric_char (c : ascii) : bool :=
  let n := nat_of_ascii c in
  is_digit c || (n =? 178) || (n =? 179) || (n =? 185)
  || ((188 <=? n) && (n <=? 190)).

(** [s.isnumeric()]: at least one character and all of them numeric. *)
Definition isnumeric (s : string) : bool :=
  negb (String.length s =? 0) && forallb numeric_char (list_ascii_of_string s).

(** [int(c)] for a one-character string: only the decimal digits parse. *)
Definition int_of_char (c : ascii) : res nat :=
  if is_digit c then Ok (nat_of_ascii c - 48) else Raise ValueError.

(** [str(n)] / ['{}'.format(n)] for [n >= 0]. *)
Definition str_of_nat (n : nat) : string := NilZero.string_of_uint (Nat.to_uint n).

(** ['{:04d}'.format(n)] for [n >= 0]: decimal, left-padded with zeros to
    width 4. *)
Definition format_04d (n : nat) : string :=
  let s := str_of_nat n in
  String.concat EmptyString (repeat "0" (4 - String.length s)) +:+ s.

(** [max] applied to the unpacked list [l]. *)
Definition py_max (l : list nat) : nat := foldr Nat.max 0 l.

(** [sorted(X)] on strings: ascending in the code-point lexicographic
    order. *)
Definition str_le (s1 s2 : string) : Prop := String.leb s1 s2 = true.
Definition str_lt (s1 s2 : string) : Prop := String.ltb s1 s2 = true.

#[global] Instance str_le_dec s1 s2 : Decision (str_le s1 s2).
Proof. unfold str_le. apply _. Defined.

Definition sorted (X : gset string) : list string := merge_sort str_le (elements X).

(** ** The counting loop

    [answer], [_check_result] and [_calculate_score] contain the same loop
    over [range(4)]:
<<
        if x[i] == y[i]:   count_a += 1
        elif x[i] in y:    count_b += 1
>>
    Indexing is evaluated left to right. *)
Definition count_step (x y : string) (ab : nat * nat) (i : nat) : res (nat * nat) :=
  xi ← getitem x i;
  yi ← getitem y i;
  if Ascii.eqb xi yi then Ok (S ab.1, ab.2)
  else if char_in xi y then Ok (ab.1, S ab.2)
  else Ok ab.

Definition count_ab (x y : string) : res (nat * nat) :=
  for_each (count_step x y) (seq 0 4) (0, 0).

(** ** class GuessNumberChecker *)
Module GuessNumberChecker.

Record t := { _answer_number : string }.

Definition is_valid_answer (answer_number : string) : bool :=
  let target := answer_number in
  if negb (String.length target =? 4) then false
  else if negb (isnumeric target) then false
  else forallb (λ i,
         match String.get i target with
         | Some c => negb (char_in c (slice_from (i + 1) target))
         | None => true (* not reached: len(target) == 4 *)
         end) (seq 0 3).

Definition answer (self : t) (query : string) : res string :=
  '(count_a, count_b) ← count_ab query (_answer_number self);
  Ok (str_of_nat count_a +:+ "A" +:+ str_of_nat count_b +:+ "B").

End GuessNumberChecker.

(** ** class GuessNumberTree *)
Module GuessNumberTree.

(** [TreeNode]: a guess and 25 child slots, [None] where absent. *)
#[warnings="-register-all"] Inductive TreeNode := mkTreeNode {
  record : string;
  next : list (option TreeNode) }.

(** [TreeNode.__init__(record)]. *)
Definition new_TreeNode (record : string) : TreeNode :=
  mkTreeNode record (replicate 25 None).

Record t := { root : TreeNode }.

Definition initialize (self : t) : t := {| root := new_TreeNode "0123" |}.

(** [GuessNumberTree()]: [__init__] calls [initialize]. *)
Definition new : t := {| root := new_TreeNode "0123" |}.

End GuessNumberTree.

(** ** class GuessNumberAI *)
Module GuessNumberAI.
Import GuessNumberTree.

Record t := {
  _previous : string;
  _log : list (nat * nat);
  _records : gset string;
  _numbers : gset string;
  _number_list : list string;
  _tree : GuessNumberTree.t }.

Definition is_valid_answer (answer_number : string) : bool :=
  let target := answer_number in
  if negb (String.length target =? 4) then false
  else if negb (isnumeric target) then false
  else forallb (λ i,
         match String.get i target with
         | Some c => negb (char_in c (slice_from (i + 1) target))
         | None => true (* not reached: len(target) == 4 *)
         end) (seq 0 3).

Definition initialize (self : t) : t :=
  {| _previous := EmptyString;
     _log := [];
     _records := _numbers self;
     _numbers := _numbers self;
     _number_list := _number_list self;
     _tree := _tree self |}.

(** The comprehension of [__init__], as a list in the order of
    [range(10000)]. *)
Definition valid_numbers : list string :=
  map format_04d (filter (λ i, is_valid_answer (format_04d i) = true) (seq 0 10000)).

(** [GuessNumberAI()]. *)
Definition new : t :=
  let numbers : gset string := list_to_set valid_numbers in
  initialize
    {| _previous := EmptyString;
       _log := [];
       _records := ∅;
       _numbers := numbers;
       _number_list := sorted numbers;
       _tree := GuessNumberTree.new |}.

Definition _check_result (self : t) (number : string) (a b : nat) : res bool :=
  '(count_a, count_b) ← count_ab number (_previous self);
  Ok ((count_a =? a) && (count_b =? b)).

(** [set.remove(key)]. *)
Definition set_remove (X : gset string) (key : string) : res (gset string) :=
  if decide (key ∈ X) then Ok (X ∖ {[ key ]}) else Raise KeyError.

Definition _filter_record (self : t) (a b : nat) : res t :=
  to_delete ← for_each (λ acc key,
                 ok ← _check_result self key a b;
                 Ok (if negb ok then acc ++ [key] else acc))
               (elements (_records self)) [];
  records ← for_each set_remove to_delete (_records self);
  Ok {| _previous := _previous self;
        _log := _log self;
        _records := records;
        _numbers := _numbers self;
        _number_list := _number_list self;
        _tree := _tree self |}.

(** [result[i] += 1]. *)
Definition list_incr (result : list nat) (i : nat) : res (list nat) :=
  match result !! i with
  | Some n => Ok (<[ i := n + 1 ]> result)
  | None => Raise IndexError
  end.

Definition _calculate_score (self : t) (number : string) : res nat :=
  result ← for_each (λ result key,
              '(count_a, count_b) ← count_ab number key;
              list_incr result (count_a * 5 + count_b))
            (elements (_records self)) (replicate 25 0);
  Ok (py_max result).

(** The loop shared by [_search_tree] and [_update_tree]:
<<
      for key in self._log:
          if tree_node.next[idx] is not None:
              tree_node = tree_node.next[idx]
>>
    It returns the node the loop ends at. *)
Fixpoint walk_log (tree_node : TreeNode) (log : list (nat * nat)) : res TreeNode :=
  match log with
  | [] => Ok tree_node
  | key :: log' =>
      match next tree_node !! (key.1 * 5 + key.2) with
      | None => Raise IndexError
      | Some None => walk_log tree_node log'
      | Some (Some child) => walk_log child log'
      end
  end.

Definition _search_tree (self : t) (a b : nat) : res string :=
  tree_node ← walk_log (root (_tree self)) (_log self);
  match next tree_node !! (a * 5 + b) with
  | None => Raise IndexError
  | Some None => Ok EmptyString
  | Some (Some child) => Ok (record child)
  end.

(** [_update_tree] assigns into the node [walk_log] ends at.  Nodes are
    owned by exactly one parent slot, so the in-place assignment is the
    same as rebuilding the slots on the way back to the root. *)
Fixpoint update_node (tree_node : TreeNode) (log : list (nat * nat))
    (next_guess : string) (a b : nat) : res TreeNode :=
  match log with
  | [] =>
      match next tree_node !! (a * 5 + b) with
      | None => Raise IndexError
      | Some None =>
          Ok (mkTreeNode (record tree_node)
                (<[ a * 5 + b := Some (new_TreeNode next_guess) ]> (next tree_node)))
      | Some (Some _) => Ok tree_node
      end
  | key :: log' =>
      match next tree_node !! (key.1 * 5 + key.2) with
      | None => Raise IndexError
      | Some None => update_node tree_node log' next_guess a b
      | Some (Some child) =>
          child' ← update_node child log' next_guess a b;
          Ok (mkTreeNode (record tree_node)
                (<[ key.1 * 5 + key.2 := Some child' ]> (next tree_node)))
      end
  end.

Definition _update_tree (self : t) (next_guess : string) (a b : nat) : res t :=
  root' ← update_node (root (_tree self)) (_log self) next_guess a b;
  Ok {| _previous := _previous self;
        _log := _log self;
        _records := _records self;
        _numbers := _numbers self;
        _number_list := _number_list self;
        _tree := {| root := root' |} |}.

(** [int(result[0]), int(result[2])]. *)
Definition parse_result (result : string) : res (nat * nat) :=
  c0 ← getitem result 0;
  a ← int_of_char c0;
  c2 ← getitem result 2;
  b ← int_of_char c2;
  Ok (a, b).

(** [next(iter(X))]. *)
Definition next_iter (X : gset string) : res string :=
  match elements X with
  | x :: _ => Ok x
  | [] => Raise StopIteration
  end.

(** The start value [1e5] of the running minimum; scores are integers,
    and Python compares an integer with a float exactly. *)
Definition initial_best : nat := 100000.

(** The scan of [guess] over [self._number_list]. *)
Definition select_step (self : t) (candidate : string * nat) (key : string)
    : res (string * nat) :=
  key_score ← _calculate_score self key;
  if key_score <? candidate.2 then Ok (key, key_score) else Ok candidate.

Definition select (self : t) : res (string * nat) :=
  for_each (select_step self) (_number_list self) (EmptyString, initial_best).

Definition set_previous (self : t) (previous : string) : t :=
  {| _previous := previous;
     _log := _log self;
     _records := _records self;
     _numbers := _numbers self;
     _number_list := _number_list self;
     _tree := _tree self |}.

Definition log_append (self : t) (key : nat * nat) : t :=
  {| _previous := _previous self;
     _log := _log self ++ [key];
     _records := _records self;
     _numbers := _numbers self;
     _number_list := _number_list self;
     _tree := _tree self |}.

(** Which way a call of [guess] left the function. *)
Inductive branch := Opening | Single | CacheHit | Minimax | Raised.

(** [guess]: the object after the call, what the call returned or raised,
    and (a ghost value, not part of the program) the branch taken.  An
    exception leaves the attributes as they were when it was raised. *)
Definition guess_traced (self : t) (result : option string)
    : t * res string * branch :=
  match result with
  | None =>
      let self := initialize self in
      let self := set_previous self "0123" in
      (self, Ok (_previous self), Opening)
  | Some result =>
      match parse_result result with
      | Raise e => (self, Raise e, Raised)
      | Ok (a, b) =>
      match _filter_record self a b with
      | Raise e => (self, Raise e, Raised)
      | Ok self =>
      if size (_records self) =? 1 then
        match next_iter (_records self) with
        | Raise e => (self, Raise e, Raised)
        | Ok x => (self, Ok x, Single)
        end
      else
      match _search_tree self a b with
      | Raise e => (self, Raise e, Raised)
      | Ok search_result =>
      if negb (String.eqb search_result EmptyString) then
        let self := set_previous self search_result in
        let self := log_append self (a, b) in
        (self, Ok (_previous self), CacheHit)
      else
        match select self with
        | Raise e => (self, Raise e, Raised)
        | Ok candidate =>
        match _update_tree self candidate.1 a b with
        | Raise e => (self, Raise e, Raised)
        | Ok self =>
        let self := set_previous self candidate.1 in
        let self := log_append self (a, b) in
        (self, Ok (_previous self), Minimax)
        end end
      end end end
  end.

Definition guess (self : t) (result : option string) : t * res string :=
  (guess_traced self result).1.

End GuessNumberAI.

(** ** Definitions used to state the properties *)

Import GuessNumberTree GuessNumberAI.

(** The characters of a string, and the strings made of ASCII digits only. *)
Definition chars (s : string) : list ascii := list_ascii_of_string s.
Definition all_digits (s : string) : bool := forallb is_digit (chars s).

(** A Digit String of the game: four characters. *)
Definition four (s : string) : Prop := String.length s = 4.

(** The slot of a Feedback Pair. *)
Definition slot (key : nat * nat) : nat := key.1 * 5 + key.2.

(** The bucket a record [key] falls into when [g] is guessed, and the 25
    buckets of a Record Set. *)
Definition bucket_index (g key : string) : option nat :=
  match count_ab g key with
  | Ok ab => Some (slot ab)
  | Raise _ => None
  end.

Definition bucket (records : gset string) (g : string) (i : nat) : gset string :=
  filter (λ key, bucket_index g key = Some i) records.

Definition largest_bucket (records : gset string) (g : string) : nat :=
  py_max (map (λ i, size (bucket records g i)) (seq 0 25)).

(** The members of a Record Set that agree with feedback [(a, b)] for the
    previous guess. *)
Definition consistent (previous : string) (a b : nat) (key : string) : Prop :=
  count_ab key previous = Ok (a, b).

#[global] Instance exn_eq_dec : EqDecision exn.
Proof. solve_decision. Defined.

#[global] Instance res_eq_dec {A} `{EqDecision A} : EqDecision (res A).
Proof. solve_decision. Defined.

#[global] Instance consistent_dec previous a b key : Decision (consistent previous a b key).
Proof. unfold consistent. apply _. Defined.

(** The node at the end of a path of slots, every edge of which must be
    there. *)
Fixpoint node_at (n : TreeNode) (path : list nat) : option TreeNode :=
  match path with
  | [] => Some n
  | i :: path' =>
      match next n !! i with
      | Some (Some child) => node_at child path'
      | _ => None
      end
  end.

(** The lookup as the specification words it: follow the edge of every
    Feedback Pair of the history in turn, and stop with "not found" at the
    first absent edge. *)
Definition lookup_spec (tree : GuessNumberTree.t) (history : list (nat * nat))
    : option string :=
  record <$> node_at (root tree) (map slot history).

(** A game session as [play] drives it: [initialize], the opening call
    [guess(None)], then one call per feedback string.  The list collects
    what each call returned and the branch it took. *)
Fixpoint feed (self : GuessNumberAI.t) (feedback : list string)
    : GuessNumberAI.t * list (res string * branch) :=
  match feedback with
  | [] => (self, [])
  | r :: feedback' =>
      let '(self', out, br) := guess_traced self (Some r) in
      let '(self'', outs) := feed self' feedback' in
      (self'', (out, br) :: outs)
  end.

Definition session (self : GuessNumberAI.t) (feedback : list string)
    : GuessNumberAI.t * list (res string * branch) :=
  let '(self0, out, br) := guess_traced (initialize self) None in
  let '(self', outs) := feed self0 feedback in
  (self', (out, br) :: outs).

(** The states an engine can be in: a new engine, and whatever [initialize]
    and [guess] (with any argument, returning or raising) make of one. *)
Inductive reachable : GuessNumberAI.t → Prop :=
| reach_new : reachable GuessNumberAI.new
| reach_initialize self : reachable self → reachable (initialize self)
| reach_guess self result : reachable self → reachable (guess self result).1.

(** [g] is the first key of [l] with the least score [sc]. *)
Definition first_least (sc : string → nat) (l : list string) (g : string) : Prop :=
  ∃ before after,
    l = before ++ g :: after
    ∧ (∀ k, k ∈ before → sc g < sc k)
    ∧ (∀ k, k ∈ after → sc g ≤ sc k).

(** What holds of the decision tree of every reachable engine. *)
Definition tree_ok (n : TreeNode) : Prop :=
  ∀ path m, node_at n path = Some m →
    length (next m) = 25 ∧ four (record m).

(** [small] is a tree that [big] extends: same nodes, same guesses. *)
Definition extends (small big : TreeNode) : Prop :=
  ∀ path m, node_at small path = Some m →
    ∃ m', node_at big path = Some m' ∧ record m' = record m.

(** What holds of every reachable engine. *)
Record engine_ok (self : GuessNumberAI.t) : Prop := {
  ok_numbers : _numbers self = list_to_set valid_numbers;
  ok_list : _number_list self = valid_numbers;
  ok_records : _records self ⊆ _numbers self;
  ok_previous : _previous self = EmptyString ∨ four (_previous self);
  ok_tree : tree_ok (root (_tree self));
  ok_log : is_Some (node_at (root (_tree self)) (map slot (_log self))) }.

(** The ways a call [guess(r)] with a feedback string can go on an engine
    whose log path is in the tree: the outcome of each, case by case. *)
Inductive guess_case (self : GuessNumberAI.t) (r : string)
    : GuessNumberAI.t * res string * branch → Prop :=
| case_parse_raises e :
    parse_result r = Raise e →
    guess_case self r (self, Raise e, Raised)
| case_filter_raises a b e :
    parse_result r = Ok (a, b) →
    _filter_record self a b = Raise e →
    guess_case self r (self, Raise e, Raised)
| case_single a b self1 x :
    parse_result r = Ok (a, b) →
    _filter_record self a b = Ok self1 →
    _records self1 = {[ x ]} →
    guess_case self r (self1, Ok x, Single)
| case_out_of_range a b self1 :
    parse_result r = Ok (a, b) →
    _filter_record self a b = Ok self1 →
    size (_records self1) ≠ 1 →
    25 ≤ a * 5 + b →
    guess_case self r (self1, Raise IndexError, Raised)
| case_hit a b self1 m child :
    parse_result r = Ok (a, b) →
    _filter_record self a b = Ok self1 →
    size (_records self1) ≠ 1 →
    node_at (root (_tree self1)) (map slot (_log self1)) = Some m →
    next m !! (a * 5 + b) = Some (Some child) →
    guess_case self r
      (log_append (set_previous self1 (record child)) (a, b),
       Ok (record child), CacheHit)
| case_miss a b self1 m g root' self2 :
    parse_result r = Ok (a, b) →
    _filter_record self a b = Ok self1 →
    size (_records self1) ≠ 1 →
    node_at (root (_tree self1)) (map slot (_log self1)) = Some m →
    next m !! (a * 5 + b) = Some None →
    first_least (largest_bucket (_records self1)) (_number_list self1) g →
    _update_tree self1 g a b = Ok self2 →
    _tree self2 = {| root := root' |} →
    extends (root (_tree self1)) root' →
    tree_ok root' →
    node_at root' (map slot (_log self1) ++ [a * 5 + b]) = Some (new_TreeNode g) →
    guess_case self r
      (log_append (set_previous self2 g) (a, b), Ok g, Minimax).

(** A string of four distinct numeric characters that are not ASCII digits
    but for the last: superscript two, superscript three, superscript one,
    and "0". *)
Definition superscripts : string :=
  String "178" (String "179" (String "185" "0")).

(** A new engine after the opening call [guess(None)]. *)
Definition opened : GuessNumberAI.t := (guess GuessNumberAI.new None).1.

(** A list of strings in strictly ascending order, as a test. *)
Fixpoint ascending (l : list string) : bool :=
  match l with
  | x :: l' =>
      match l' with
      | y :: _ => String.ltb x y && ascending l'
      | [] => true
      end
  | [] => true
  end.

(** Two engines in the same per-game state (and with the same Candidate
    Space); their decision trees may differ. *)
Definition same_game (t1 t2 : GuessNumberAI.t) : Prop :=
  _previous t1 = _previous t2 ∧ _log t1 = _log t2 ∧ _records t1 = _records t2
  ∧ _numbers t1 = _numbers t2 ∧ _number_list t1 = _number_list t2.

(** The engine [self] with the records that disagree with feedback
    [(a, b)] for the previous guess taken out. *)
Definition filtered (self : GuessNumberAI.t) (a b : nat) : GuessNumberAI.t :=
  {| _previous := _previous self;
     _log := _log self;
     _records := filter (consistent (_previous self) a b) (_records self);
     _numbers := _numbers self;
     _number_list := _number_list self;
     _tree := _tree self |}.

(** The statement of claim C2 for one call: if the feedback string [r]
    leaves no record, the call raises. *)
Definition contradiction_surfaces (self : GuessNumberAI.t) (r : string) : Prop :=
  ∀ a b self1,
    parse_result r = Ok (a, b) →
    _filter_record self a b = Ok self1 →
    _records self1 = ∅ →
    ∃ e, (guess self (Some r)).2 = Raise e.

(** The statement of claim C3 for one call: the search is the lookup of
    the specification on the log followed by the newest Feedback Pair, with
    [''] for "not found". *)
Definition search_is_lookup_spec (self : GuessNumberAI.t) (a b : nat) : Prop :=
  _search_tree self a b
  = Ok (default EmptyString (lookup_spec (_tree self) (_log self ++ [(a, b)]))).

(** The character of a decimal digit [d < 10]. *)
Definition digit_char (d : nat) : ascii := ascii_of_nat (48 + d).

(** All strings of four digits, in ascending order, and the ones among
    them that the validity predicate accepts. *)
Definition digit_strings : list string :=
  d0 ← seq 0 10; d1 ← seq 0 10; d2 ← seq 0 10; d3 ← seq 0 10;
  [String (digit_char d0) (String (digit_char d1)
     (String (digit_char d2) (String (digit_char d3) EmptyString)))].

Definition valid_digit_strings : list string :=
  filter (λ s, GuessNumberAI.is_valid_answer s = true) digit_strings.

(** ['{:04d}'.format(n)] from the little-endian decimal digits of [n]. *)
Definition format_little (u : Decimal.uint) : string :=
  let s := NilZero.string_of_uint (Decimal.rev u) in
  String.concat EmptyString (repeat "0" (4 - String.length s)) +:+ s.

(** The little-endian decimals of [k] consecutive numbers, from that of
    [u] on. *)
Fixpoint decimals_from (k : nat) (u : Decimal.uint) : list Decimal.uint :=
  match k with
  | 0 => []
  | S k' => u :: decimals_from k' (Decimal.Little.succ u)
  end.

(** Every guess stored in the tree is a member of the Candidate Space. *)
Definition tree_valid (n : TreeNode) : Prop :=
  ∀ path m, node_at n path = Some m → record m ∈ valid_numbers.

(** ** class GuessNumberAISelfTest, and the function [play]

    [print] writes a line to standard output; the lines written are the
    last component of what the models return.  [print(x, y, z)] separates
    its arguments by single spaces. *)

(** ['Round-{} {} {}'.format(tried, guess, result)]. *)
Definition format_round (tried : nat) (guess result : string) : string :=
  "Round-" +:+ str_of_nat tried +:+ " " +:+ guess +:+ " " +:+ result.

Module GuessNumberAISelfTest.

(** The [while] loop of [_play].  The loop has no bound of its own, so the
    model takes fuel and returns [None] when it runs out; the state of the
    loop is the engine, [result], [tried], [logs] and the lines printed. *)
Fixpoint _play_loop (fuel : nat) (answer_number : string)
    (game_checker : GuessNumberChecker.t) (guess_number_ai : GuessNumberAI.t)
    (result : option string) (tried : nat) (logs : list string)
    : option (GuessNumberAI.t * res (nat * list string * list string)) :=
  if bool_decide (result = Some "4A0B") then
    Some (guess_number_ai, Ok (tried, logs, []))
  else
    match fuel with
    | 0 => None
    | S fuel' =>
        let tried := tried + 1 in
        match GuessNumberAI.guess guess_number_ai result with
        | (guess_number_ai, Raise e) => Some (guess_number_ai, Raise e)
        | (guess_number_ai, Ok guess) =>
            match GuessNumberChecker.answer game_checker guess with
            | Raise e => Some (guess_number_ai, Raise e)
            | Ok result =>
                let logs := logs ++ [format_round tried guess result] in
                if 10 <=? tried then
                  Some (guess_number_ai,
                        Ok (tried, logs,
                            ["[!] Answer number " +:+ answer_number
                             +:+ " has already tried 10 times. Terminated!"]))
                else
                  _play_loop fuel' answer_number game_checker guess_number_ai
                    (Some result) tried logs
            end
        end
    end.

(** [_play(answer_number, guess_number_ai)]: the engine afterwards, the
    number of tries returned, and the lines printed. *)
Definition _play (fuel : nat) (answer_number : string)
    (guess_number_ai : GuessNumberAI.t)
    : option (GuessNumberAI.t * res nat * list string) :=
  let game_checker := {| GuessNumberChecker._answer_number := answer_number |} in
  let guess_number_ai := GuessNumberAI.initialize guess_number_ai in
  match _play_loop fuel answer_number game_checker guess_number_ai None 0 [] with
  | None => None
  | Some (guess_number_ai, Raise e) => Some (guess_number_ai, Raise e, [])
  | Some (guess_number_ai, Ok (tried, logs, printed)) =>
      Some (guess_number_ai, Ok tried,
            printed ++ (if 7 <? tried then logs else []))
  end.

(** The [for] loop of [start_self_test]. *)
Fixpoint self_test_loop (fuel : nat) (numbers : list string)
    (guess_number_ai : GuessNumberAI.t) (max_value : nat) (printed : list string)
    : option (GuessNumberAI.t * res nat * list string) :=
  match numbers with
  | [] => Some (guess_number_ai, Ok max_value, printed)
  | number :: numbers' =>
      match _play fuel number guess_number_ai with
      | None => None
      | Some (guess_number_ai, Raise e, out) =>
          Some (guess_number_ai, Raise e, printed ++ out)
      | Some (guess_number_ai, Ok tried, out) =>
          let max_value := Nat.max max_value tried in
          let printed :=
            printed ++ out
            ++ (if 7 <? tried
                then ["Number " +:+ number +:+ " tried " +:+ str_of_nat tried
                      +:+ " times"]
                else []) in
          self_test_loop fuel numbers' guess_number_ai max_value printed
      end
  end.

(** [start_self_test(start, end, guess_number_ai)] for [start, end >= 0];
    the last [print] ends with two newlines, so with an empty line. *)
Definition start_self_test (fuel : nat) (start end_ : nat)
    (guess_number_ai : option GuessNumberAI.t)
    : option (GuessNumberAI.t * res nat * list string) :=
  let guess_number_ai :=
    match guess_number_ai with
    | None => GuessNumberAI.new
    | Some ai => ai
    end in
  let numbers :=
    map format_04d
      (filter (λ i, GuessNumberAI.is_valid_answer (format_04d i) = true)
         (seq start (end_ - start))) in
  let printed :=
    ["Size of test data " +:+ str_of_nat (length numbers) +:+ " in range [ "
     +:+ str_of_nat start +:+ " , " +:+ str_of_nat end_ +:+ " )"] in
  match self_test_loop fuel numbers guess_number_ai 0 printed with
  | Some (guess_number_ai, Ok max_value, printed) =>
      Some (guess_number_ai, Ok max_value,
            printed ++ ["Maximum times used: " +:+ str_of_nat max_value
                        +:+ " times"; EmptyString])
  | other => other
  end.

End GuessNumberAISelfTest.

(** The [while] loop of the function [play], which has no cap on the
    number of rounds and prints every round. *)
Fixpoint play_loop (fuel : nat) (game_checker : GuessNumberChecker.t)
    (guess_number_ai : GuessNumberAI.t) (result : option string) (tried : nat)
    (printed : list string)
    : option (GuessNumberAI.t * res nat * list string) :=
  if bool_decide (result = Some "4A0B") then
    Some (guess_number_ai, Ok tried, printed)
  else
    match fuel with
    | 0 => None
    | S fuel' =>
        let tried := tried + 1 in
        match GuessNumberAI.guess guess_number_ai result with
        | (guess_number_ai, Raise e) => Some (guess_number_ai, Raise e, printed)
        | (guess_number_ai, Ok guess) =>
            match GuessNumberChecker.answer game_checker guess with
            | Raise e => Some (guess_number_ai, Raise e, printed)
            | Ok result =>
                play_loop fuel' game_checker guess_number_ai (Some result) tried
                  (printed ++ [format_round tried guess result])
            end
        end
    end.

Definition play (fuel : nat) (answer_number : string)
    (guess_number_ai : GuessNumberAI.t)
    : option (GuessNumberAI.t * res nat * list string) :=
  let game_checker := {| GuessNumberChecker._answer_number := answer_number |} in
  let guess_number_ai := GuessNumberAI.initialize guess_number_ai in
  play_loop fuel game_checker guess_number_ai None 0 [].

(** The games of a self test: [_play] on every number of the list in
    order, each game on the engine the game before left, none raising;
    [tries] are the numbers of tries the games returned, in that order. *)
Inductive games_played (fuel : nat)
    : GuessNumberAI.t → list string → GuessNumberAI.t → list nat → Prop :=
| games_none ai : games_played fuel ai [] ai []
| games_more ai number numbers ai1 tried out ai' tries :
    GuessNumberAISelfTest._play fuel number ai = Some (ai1, Ok tried, out) →
    games_played fuel ai1 numbers ai' tries →
    games_played fuel ai (number :: numbers) ai' (tried :: tries).

(** The state between two rounds of a game against the secret [secret]:
    the engine is reachable, the secret is still a record, and [result] is
    the checker's answer, not yet "4A0B", to the previous guess. *)
Definition in_game (secret : string) (ai : GuessNumberAI.t)
    (result : option string) : Prop :=
  reachable ai ∧
  match result with
  | None => True
  | Some r =>
      secret ∈ _records ai
      ∧ _previous ai ∈ valid_numbers
      ∧ GuessNumberChecker.answer
          {| GuessNumberChecker._answer_number := secret |} (_previous ai) = Ok r
      ∧ r ≠ "4A0B"
  end.

(** * Properties *)

(** ** The scorer *)

Lemma four_inv s :
  four s → ∃ c0 c1 c2 c3, s = String c0 (String c1 (String c2 (String c3 EmptyString))).
Proof.
  unfold four. intros H.
  do 4 (destruct s as [|? s]; [discriminate|]).
  destruct s; [|discriminate]. eauto.
Qed.

Lemma count_step_bound x y ab i ab' :
  count_step x y ab i = Ok ab' → ab'.1 + ab'.2 ≤ S (ab.1 + ab.2) ∧ ab.1 ≤ ab'.1.
Proof.
  unfold count_step. destruct (getitem x i); [|discriminate].
  destruct (getitem y i); [|discriminate]. simpl.
  repeat case_match; intros [= <-]; simpl; lia.
Qed.

Lemma for_each_count_bound x y l ab ab' :
  for_each (count_step x y) l ab = Ok ab' →
  ab'.1 + ab'.2 ≤ length l + (ab.1 + ab.2).
Proof.
  revert ab. induction l as [|i l IH]; intros ab; simpl.
  - intros [= <-]. lia.
  - destruct (count_step x y ab i) as [ab1|] eqn:E; [|discriminate]. simpl.
    intros H. apply IH in H. apply count_step_bound in E. lia.
Qed.

Lemma count_ab_bound x y a b : count_ab x y = Ok (a, b) → a + b ≤ 4.
Proof. intros H. apply for_each_count_bound in H. simpl in H. lia. Qed.

Lemma count_ab_slot x y ab : count_ab x y = Ok ab → slot ab < 25.
Proof. destruct ab as [a b]. intros H%count_ab_bound. unfold slot. simpl. lia. Qed.

Lemma get_is_Some s i : i < String.length s → ∃ c, String.get i s = Some c.
Proof.
  revert i. induction s as [|d s IH]; intros i Hi; simpl in *; [lia|].
  destruct i; [eauto|]. apply IH. lia.
Qed.

Lemma getitem_ok s i : i < String.length s → ∃ c, getitem s i = Ok c.
Proof. intros [c Hc]%get_is_Some. unfold getitem. rewrite Hc. eauto. Qed.

Lemma count_step_ok x y ab i :
  i < String.length x → i < String.length y → ∃ ab', count_step x y ab i = Ok ab'.
Proof.
  intros [xi Hx]%getitem_ok [yi Hy]%getitem_ok. unfold count_step.
  rewrite Hx, Hy. simpl. repeat case_match; eauto.
Qed.

Lemma for_each_count_ok x y l ab :
  (∀ i, i ∈ l → i < String.length x ∧ i < String.length y) →
  ∃ ab', for_each (count_step x y) l ab = Ok ab'.
Proof.
  revert ab. induction l as [|i l IH]; intros ab Hl; simpl; [eauto|].
  destruct (count_step_ok x y ab i) as [ab1 E].
  1,2: apply Hl; left.
  rewrite E. simpl. apply IH. intros j Hj. apply Hl. by right.
Qed.

Lemma count_ab_ok x y :
  4 ≤ String.length x → 4 ≤ String.length y → ∃ ab, count_ab x y = Ok ab.
Proof.
  intros Hx Hy. apply for_each_count_ok.
  intros i Hi%elem_of_seq. lia.
Qed.

Lemma count_ab_four x y : four x → four y → ∃ ab, count_ab x y = Ok ab.
Proof. unfold four. intros Hx Hy. apply count_ab_ok; lia. Qed.

Lemma ascii_eqb_refl c : Ascii.eqb c c = true.
Proof. by apply Ascii.eqb_eq. Qed.

Lemma count_ab_self x : four x → count_ab x x = Ok (4, 0).
Proof.
  intros (c0 & c1 & c2 & c3 & ->)%four_inv.
  unfold count_ab, count_step. simpl. by rewrite !ascii_eqb_refl.
Qed.

Lemma count_ab_all_equal x y b : four x → four y → count_ab x y = Ok (4, b) → x = y.
Proof.
  intros (c0 & c1 & c2 & c3 & ->)%four_inv (d0 & d1 & d2 & d3 & ->)%four_inv.
  unfold count_ab, count_step. simpl.
  destruct (Ascii.eqb c0 d0) eqn:E0, (Ascii.eqb c1 d1) eqn:E1,
    (Ascii.eqb c2 d2) eqn:E2, (Ascii.eqb c3 d3) eqn:E3; simpl;
    repeat case_match; simpl; try discriminate.
  apply Ascii.eqb_eq in E0, E1, E2, E3. by subst.
Qed.

Lemma parse_format a b :
  a ≤ 4 → b ≤ 4 →
  parse_result (str_of_nat a +:+ "A" +:+ str_of_nat b +:+ "B") = Ok (a, b).
Proof.
  intros Ha Hb.
  do 5 (destruct a as [|a]; [do 5 (destruct b as [|b]; [reflexivity|]); lia|]).
  lia.
Qed.

(** ** The validity predicate *)

Lemma is_valid_answer_same s :
  GuessNumberChecker.is_valid_answer s = GuessNumberAI.is_valid_answer s.
Proof. reflexivity. Qed.

Lemma is_valid_answer_four s : GuessNumberAI.is_valid_answer s = true → four s.
Proof.
  unfold GuessNumberAI.is_valid_answer, four.
  destruct (String.length s =? 4) eqn:E; simpl; [|discriminate].
  intros _. by apply Nat.eqb_eq.
Qed.

Lemma ascii_eqb_false c d : Ascii.eqb c d = false ↔ c ≠ d.
Proof. apply Ascii.eqb_neq. Qed.

(** The predicate, read off the code: four characters, all of them numeric
    in the sense of [str.isnumeric], no two of them equal. *)
Lemma is_valid_answer_spec s :
  GuessNumberAI.is_valid_answer s = true ↔
  four s ∧ forallb numeric_char (chars s) = true ∧ NoDup (chars s).
Proof.
  split.
  - intros H. pose proof (is_valid_answer_four s H) as Hs.
    destruct (four_inv s Hs) as (c0 & c1 & c2 & c3 & ->).
    revert H. unfold GuessNumberAI.is_valid_answer, isnumeric, chars. simpl.
    destruct (numeric_char c0), (numeric_char c1), (numeric_char c2),
      (numeric_char c3); simpl; try discriminate.
    rewrite !orb_false_r, !andb_true_r.
    rewrite !andb_true_iff, !negb_true_iff, !orb_false_iff, !ascii_eqb_false.
    intros ((H01 & H02 & H03) & (H12 & H13) & H23).
    split; [done|]. split; [done|].
    repeat constructor; set_solver.
  - intros (Hs & Hn & Hd).
    destruct (four_inv s Hs) as (c0 & c1 & c2 & c3 & ->).
    unfold GuessNumberAI.is_valid_answer, isnumeric, chars in *. simpl in *.
    rewrite Hn. simpl.
    rewrite !orb_false_r, !andb_true_r.
    rewrite !andb_true_iff, !negb_true_iff, !orb_false_iff, !ascii_eqb_false.
    apply NoDup_cons in Hd as [H0 Hd]. apply NoDup_cons in Hd as [H1 Hd].
    apply NoDup_cons in Hd as [H2 Hd]. set_solver.
Qed.

(** C5. For valid Digit Strings [x] and [y] the scorer's answer for guess
    [x] against secret [y] is a string "aAbB" that the engine reads back as
    [(a, b)] with [a + b <= 4]; [a = 4] only when [x = y]; and the answer
    for [x] against itself is "4A0B", that is (4, 0). *)
Theorem C5_scorer_bounds (x y : string) :
  GuessNumberChecker.is_valid_answer x = true →
  GuessNumberChecker.is_valid_answer y = true →
  ∃ r a b,
    GuessNumberChecker.answer {| GuessNumberChecker._answer_number := y |} x = Ok r
    ∧ parse_result r = Ok (a, b)
    ∧ a + b ≤ 4
    ∧ (a = 4 → x = y)
    ∧ GuessNumberChecker.answer {| GuessNumberChecker._answer_number := x |} x
      = Ok "4A0B"
    ∧ parse_result "4A0B" = Ok (4, 0).
Proof.
  intros Hx%is_valid_answer_four Hy%is_valid_answer_four.
  destruct (count_ab_four x y Hx Hy) as [[a b] E].
  pose proof (count_ab_bound _ _ _ _ E) as Hab.
  exists (str_of_nat a +:+ "A" +:+ str_of_nat b +:+ "B"), a, b.
  unfold GuessNumberChecker.answer. simpl. rewrite E. simpl.
  split; [done|]. split; [apply parse_format; lia|]. split; [done|].
  split.
  - intros ->. by apply (count_ab_all_equal x y b).
  - rewrite count_ab_self by done. done.
Qed.

Lemma C5_scorer_bounds_witness :
  ∃ r a b,
    GuessNumberChecker.answer {| GuessNumberChecker._answer_number := "1234" |} "0123" = Ok r
    ∧ parse_result r = Ok (a, b)
    ∧ a + b ≤ 4
    ∧ (a = 4 → "0123" = "1234")
    ∧ GuessNumberChecker.answer {| GuessNumberChecker._answer_number := "0123" |} "0123"
      = Ok "4A0B"
    ∧ parse_result "4A0B" = Ok (4, 0).
Proof. apply (C5_scorer_bounds "0123" "1234"); reflexivity. Defined.

Lemma numeric_char_ascii c :
  nat_of_ascii c < 128 → numeric_char c = is_digit c.
Proof.
  intros H. unfold numeric_char.
  assert (nat_of_ascii c =? 178 = false) as -> by (apply Nat.eqb_neq; lia).
  assert (nat_of_ascii c =? 179 = false) as -> by (apply Nat.eqb_neq; lia).
  assert (nat_of_ascii c =? 185 = false) as -> by (apply Nat.eqb_neq; lia).
  assert (188 <=? nat_of_ascii c = false) as -> by (apply Nat.leb_gt; lia).
  by destruct (is_digit c).
Qed.

(** On strings of ASCII characters the predicate is what the
    specification says. *)
Lemma is_valid_answer_ascii s :
  Forall (λ c, nat_of_ascii c < 128) (chars s) →
  GuessNumberAI.is_valid_answer s = true ↔
  four s ∧ all_digits s = true ∧ NoDup (chars s).
Proof.
  intros Hs. rewrite is_valid_answer_spec. unfold all_digits.
  assert (forallb numeric_char (chars s) = forallb is_digit (chars s)) as ->; [|done].
  induction Hs as [|c l Hc Hl IH]; [done|]. simpl.
  by rewrite IH, numeric_char_ascii.
Qed.

(** C8. The validity predicate (both copies of it) returns [True] for the
    four-character string of superscript two, superscript three,
    superscript one and "0", although three of its characters are not
    digits '0'-'9': the test [isnumeric] admits every Unicode numeric
    character. *)
Theorem C8_is_valid_answer_accepts_non_digits :
  GuessNumberChecker.is_valid_answer superscripts = true
  ∧ GuessNumberAI.is_valid_answer superscripts = true
  ∧ String.length superscripts = 4
  ∧ NoDup (chars superscripts)
  ∧ all_digits superscripts = false.
Proof.
  repeat split; try reflexivity.
  unfold superscripts, chars. simpl.
  repeat constructor; rewrite ?elem_of_cons, ?elem_of_nil; intros H;
    repeat destruct H as [H|H]; try discriminate H; done.
Qed.

(** ** initialize *)

(** C9. [initialize] makes the Record Set the full Candidate Space, empties
    the History Log and the previous guess, and leaves the Decision Cache,
    the Candidate Space and its sorted list as they were; every history
    looks up the same cached guess before and after, also after the opening
    call of the next game. *)
Theorem C9_initialize_frame (self : GuessNumberAI.t) :
  _records (initialize self) = _numbers self
  ∧ _log (initialize self) = []
  ∧ _previous (initialize self) = EmptyString
  ∧ _tree (initialize self) = _tree self
  ∧ _numbers (initialize self) = _numbers self
  ∧ _number_list (initialize self) = _number_list self
  ∧ (∀ history, lookup_spec (_tree (initialize self)) history
                = lookup_spec (_tree self) history)
  ∧ _tree (guess (initialize self) None).1 = _tree self.
Proof. repeat split. Qed.

(** ** _filter_record *)

Lemma check_result_four self key a b :
  four key → four (_previous self) →
  _check_result self key a b
  = Ok (bool_decide (consistent (_previous self) a b key)).
Proof.
  intros Hk Hp. unfold _check_result.
  destruct (count_ab_four key (_previous self) Hk Hp) as [[ca cb] E].
  rewrite E. simpl. f_equal.
  destruct (Nat.eqb_spec ca a) as [->|]; simpl.
  - destruct (Nat.eqb_spec cb b) as [->|].
    + by rewrite bool_decide_eq_true_2.
    + rewrite bool_decide_eq_false_2; [done|].
      unfold consistent. rewrite E. intros [=]. done.
  - rewrite bool_decide_eq_false_2; [done|].
    unfold consistent. rewrite E. intros [=]. done.
Qed.

(** The list comprehension that collects the keys to delete. *)
Lemma to_delete_four self a b l acc :
  (∀ key, key ∈ l → four key) → four (_previous self) →
  for_each (λ acc key,
      ok ← _check_result self key a b;
      Ok (if negb ok then acc ++ [key] else acc)) l acc
  = Ok (acc ++ filter (λ key, ¬ consistent (_previous self) a b key) l).
Proof.
  intros Hl Hp. revert acc. induction l as [|key l IH]; intros acc; simpl.
  - by rewrite app_nil_r.
  - rewrite check_result_four by (done || (apply Hl; left)). simpl.
    rewrite IH by (intros; apply Hl; by right).
    rewrite filter_cons. case_bool_decide; case_decide; simpl; try done.
    by rewrite <-app_assoc.
Qed.

Lemma to_delete_sub self a b l acc dl :
  for_each (λ acc key,
      ok ← _check_result self key a b;
      Ok (if negb ok then acc ++ [key] else acc)) l acc = Ok dl →
  ∀ key, key ∈ dl → key ∈ acc ∨ key ∈ l.
Proof.
  revert acc. induction l as [|k l IH]; intros acc; simpl.
  - intros [= <-]. auto.
  - destruct (_check_result self k a b) as [ok|]; [|discriminate]. simpl.
    intros H key Hkey. destruct (IH _ H key Hkey) as [Hk|Hk].
    + destruct ok; simpl in Hk; [by left|].
      apply elem_of_app in Hk as [?|Hk%list_elem_of_singleton]; [by left|].
      subst. right; left.
    + right. by right.
Qed.

(** The deletion loop. *)
Lemma remove_all_sub dl X X' :
  for_each set_remove dl X = Ok X' → X' ⊆ X.
Proof.
  revert X. induction dl as [|k dl IH]; intros X; simpl.
  - by intros [= <-].
  - destruct (set_remove X k) as [X1|] eqn:E; simpl; [|discriminate].
    unfold set_remove in E. case_decide; [|discriminate].
    injection E as <-. intros HX. apply IH in HX. set_solver.
Qed.

Lemma remove_all_ok dl X :
  NoDup dl → (∀ key, key ∈ dl → key ∈ X) →
  for_each set_remove dl X = Ok (X ∖ list_to_set dl).
Proof.
  revert X. induction dl as [|k dl IH]; intros X Hd Hsub; simpl.
  - f_equal. set_solver.
  - apply NoDup_cons in Hd as [Hk Hd].
    assert (set_remove X k = Ok (X ∖ {[k]})) as ->.
    { unfold set_remove. rewrite decide_True; [done|]. apply Hsub. left. }
    simpl. rewrite IH; [f_equal; set_solver|done|].
    intros key Hkey. apply elem_of_difference. split; [apply Hsub; by right|].
    intros Heq%elem_of_singleton. by subst.
Qed.

(** Whatever the strings are, a filter that returns leaves a subset of
    the records behind and touches nothing else. *)
Lemma filter_record_frame self a b self' :
  _filter_record self a b = Ok self' →
  _records self' ⊆ _records self
  ∧ _previous self' = _previous self ∧ _log self' = _log self
  ∧ _numbers self' = _numbers self ∧ _number_list self' = _number_list self
  ∧ _tree self' = _tree self.
Proof.
  unfold _filter_record.
  destruct (for_each _ (elements _) _) as [dl|]; [|discriminate]. simpl.
  destruct (for_each set_remove dl _) as [X'|] eqn:E; [|discriminate]. simpl.
  intros [= <-]. simpl. split; [|done]. by eapply remove_all_sub.
Qed.

Lemma filter_record_four self a b :
  (∀ key, key ∈ _records self → four key) → four (_previous self) →
  ∃ self', _filter_record self a b = Ok self'
    ∧ _records self' = filter (consistent (_previous self) a b) (_records self).
Proof.
  intros Hr Hp. unfold _filter_record.
  rewrite to_delete_four; [|intros key Hk; apply Hr; set_solver|done]. simpl.
  rewrite remove_all_ok.
  - simpl. eexists; split; [done|]. simpl.
    apply set_eq. intros key.
    rewrite elem_of_difference, elem_of_list_to_set, list_elem_of_filter,
      elem_of_filter, elem_of_elements.
    destruct (decide (consistent (_previous self) a b key)); tauto.
  - apply NoDup_filter, NoDup_elements.
  - intros key [_ Hk%elem_of_elements]%list_elem_of_filter. done.
Qed.


(** ** The order of [sorted] *)

Lemma str_compare_trans s1 : ∀ s2 s3 c,
  String.compare s1 s2 = c → String.compare s2 s3 = c → c ≠ Eq →
  String.compare s1 s3 = c.
Proof.
  induction s1 as [|c1 s1 IH]; intros [|c2 s2] [|c3 s3] c; simpl;
    try congruence.
  unfold Ascii.compare.
  destruct (N.compare_spec (N_of_ascii c1) (N_of_ascii c2)) as [E12|L12|G12];
  destruct (N.compare_spec (N_of_ascii c2) (N_of_ascii c3)) as [E23|L23|G23];
  destruct (N.compare_spec (N_of_ascii c1) (N_of_ascii c3)) as [E13|L13|G13];
    try congruence; try lia.
  apply IH.
Qed.

Lemma str_le_alt s1 s2 : str_le s1 s2 ↔ str_lt s1 s2 ∨ s1 = s2.
Proof.
  unfold str_le, str_lt, String.leb, String.ltb.
  destruct (String.compare s1 s2) eqn:E.
  - apply String.compare_eq_iff in E. tauto.
  - tauto.
  - split; [done|]. intros [?| ->]; [done|].
    assert (String.compare s2 s2 = Eq) as E'; [|congruence].
    clear E. induction s2 as [|c s IH]; simpl; [done|].
    unfold Ascii.compare. by rewrite N.compare_refl.
Qed.

#[global] Instance str_lt_trans : Transitive str_lt.
Proof.
  intros s1 s2 s3. unfold str_lt, String.ltb.
  destruct (String.compare s1 s2) eqn:E12; try done.
  destruct (String.compare s2 s3) eqn:E23; try done.
  by rewrite (str_compare_trans s1 s2 s3 Lt).
Qed.

#[global] Instance str_le_trans : Transitive str_le.
Proof.
  intros s1 s2 s3. rewrite !str_le_alt.
  intros [H12| ->] [H23| ->]; eauto. left. by trans s2.
Qed.

#[global] Instance str_le_total : Total str_le.
Proof. intros s1 s2. apply String.leb_total. Qed.

#[global] Instance str_le_antisym : AntiSymm (=) str_le.
Proof. intros s1 s2. apply String.leb_antisym. Qed.

Lemma str_lt_irrefl s : ¬ str_lt s s.
Proof.
  unfold str_lt, String.ltb. intros H.
  destruct (String.compare s s) eqn:E; try done.
  pose proof (String.compare_antisym s s) as Ha. rewrite E in Ha. done.
Qed.

Lemma ascending_Sorted l : ascending l = true → Sorted str_lt l.
Proof.
  induction l as [|x l IH]; [constructor|].
  simpl. destruct l as [|y l]; [by repeat constructor|].
  intros [Hxy Hl]%andb_true_iff. constructor; [by apply IH|].
  by constructor.
Qed.

Lemma ascending_StronglySorted l : ascending l = true → StronglySorted str_lt l.
Proof.
  intros H. apply Sorted_StronglySorted; [apply _|]. by apply ascending_Sorted.
Qed.

Lemma StronglySorted_lt_NoDup l : StronglySorted str_lt l → NoDup l.
Proof.
  induction 1 as [|x l Hl IH Hx]; constructor; [|done].
  intros Hin. rewrite Forall_forall in Hx.
  by apply (str_lt_irrefl x), Hx.
Qed.

Lemma StronglySorted_lt_le l : StronglySorted str_lt l → StronglySorted str_le l.
Proof.
  induction 1 as [|x l Hl IH Hx]; constructor; [done|].
  eapply Forall_impl; [done|]. intros y Hy. apply str_le_alt. by left.
Qed.

(** [sorted] of the set of a strictly ascending list is that list. *)
Lemma sorted_ascending l : ascending l = true → sorted (list_to_set l) = l.
Proof.
  intros Hl%ascending_StronglySorted. unfold sorted.
  apply (StronglySorted_unique str_le).
  - apply StronglySorted_merge_sort; apply _.
  - by apply StronglySorted_lt_le.
  - rewrite merge_sort_Permutation.
    by apply elements_list_to_set, StronglySorted_lt_NoDup.
Qed.

(** ** The Candidate Space *)

Lemma valid_numbers_valid key :
  key ∈ valid_numbers → GuessNumberAI.is_valid_answer key = true.
Proof.
  unfold valid_numbers.
  intros (i & -> & Hi)%list_elem_of_fmap.
  by apply list_elem_of_filter in Hi as [Hi _].
Qed.

(** *** Computing the list without printing every number

    ['{:04d}'.format] of the numbers below 10000 is computed once, from
    consecutive decimals, and compared with the list of all four-digit
    strings. *)

Lemma decimals_from_seq k : ∀ u,
  decimals_from k u = map (λ i, Nat.to_little_uint i u) (seq 0 k).
Proof.
  induction k as [|k IH]; intros u; [done|].
  cbn [decimals_from seq map Nat.to_little_uint]. f_equal.
  rewrite IH, <-seq_shift, map_map. done.
Qed.

Lemma format_04d_seq k :
  map format_04d (seq 0 k) = map format_little (decimals_from k Decimal.zero).
Proof. rewrite decimals_from_seq, map_map. done. Qed.

Lemma map_filter_comm {A B} (f : A → B) (P : B → Prop) `{∀ y, Decision (P y)} l :
  map f (filter (λ x, P (f x)) l) = filter P (map f l).
Proof.
  induction l as [|x l IH]; [done|].
  cbn [map]. rewrite !filter_cons.
  destruct (decide (P (f x))); cbn [map]; by rewrite IH.
Qed.

Lemma digit_strings_format :
  map format_little (decimals_from 10000 Decimal.zero) = digit_strings.
Proof. vm_compute. reflexivity. Qed.

Lemma valid_numbers_eq : valid_numbers = valid_digit_strings.
Proof.
  exact (eq_trans
           (map_filter_comm format_04d
              (λ s, GuessNumberAI.is_valid_answer s = true) (seq 0 10000))
           (f_equal (filter (λ s, GuessNumberAI.is_valid_answer s = true))
              (eq_trans (format_04d_seq 10000) digit_strings_format))).
Qed.

Lemma valid_numbers_length : length valid_numbers = 5040.
Proof. rewrite valid_numbers_eq. vm_compute. reflexivity. Qed.

Lemma valid_numbers_ascending : ascending valid_numbers = true.
Proof. rewrite valid_numbers_eq. vm_compute. reflexivity. Qed.

Lemma valid_numbers_digits : forallb all_digits valid_numbers = true.
Proof. rewrite valid_numbers_eq. vm_compute. reflexivity. Qed.

Lemma valid_numbers_head : ∃ l, valid_numbers = "0123" :: l.
Proof.
  destruct valid_numbers as [|x l] eqn:E.
  - pose proof valid_numbers_length as H. rewrite E in H. discriminate H.
  - exists l. f_equal.
    assert (head valid_numbers = Some x) as Hx by by rewrite E.
    assert (head valid_numbers = Some "0123") as H0
      by (rewrite valid_numbers_eq; vm_compute; reflexivity).
    congruence.
Qed.

Lemma valid_numbers_elem i :
  (i <? 10000) = true → GuessNumberAI.is_valid_answer (format_04d i) = true →
  format_04d i ∈ valid_numbers.
Proof.
  intros Hi%Nat.ltb_lt Hv. unfold valid_numbers.
  apply list_elem_of_fmap. exists i. split; [done|].
  apply list_elem_of_filter. split; [done|]. apply elem_of_seq. split; [lia|].
  exact Hi.
Qed.

(** No member of the Candidate Space scores (3, 1) against "0123". *)
Lemma valid_numbers_no_3_1 :
  forallb (λ key, negb (bool_decide (consistent "0123" 3 1 key))) valid_numbers = true.
Proof. rewrite valid_numbers_eq. vm_compute. reflexivity. Qed.

(** From here on the list is only used through the lemmas above. *)
#[global] Opaque valid_numbers.

Lemma new_numbers : _numbers GuessNumberAI.new = list_to_set valid_numbers.
Proof. reflexivity. Qed.

Lemma new_records : _records GuessNumberAI.new = list_to_set valid_numbers.
Proof. reflexivity. Qed.

Lemma new_number_list : _number_list GuessNumberAI.new = valid_numbers.
Proof. apply sorted_ascending, valid_numbers_ascending. Qed.

Lemma elem_of_new_numbers key :
  key ∈ _numbers GuessNumberAI.new ↔ key ∈ valid_numbers.
Proof. rewrite new_numbers. apply elem_of_list_to_set. Qed.

(** C7. The Candidate Space of a new engine has exactly 5,040 members; the
    sorted list the scan iterates over has the same members, in strictly
    ascending order, and is the list of ['{:04d}'.format(i)] for the valid
    [i] in ascending numeric order; every member has four characters, all
    of them digits '0'-'9' and no two equal, and satisfies the validity
    predicate; the Record Set starts as the whole space. *)
Theorem C7_candidate_space :
  size (_numbers GuessNumberAI.new) = 5040
  ∧ length (_number_list GuessNumberAI.new) = 5040
  ∧ (∀ key, key ∈ _number_list GuessNumberAI.new ↔ key ∈ _numbers GuessNumberAI.new)
  ∧ (∀ key, key ∈ _numbers GuessNumberAI.new →
       String.length key = 4 ∧ all_digits key = true ∧ NoDup (chars key)
       ∧ GuessNumberAI.is_valid_answer key = true)
  ∧ StronglySorted str_lt (_number_list GuessNumberAI.new)
  ∧ _number_list GuessNumberAI.new
    = map format_04d
        (filter (λ i, GuessNumberAI.is_valid_answer (format_04d i) = true)
           (seq 0 10000))
  ∧ _records GuessNumberAI.new = _numbers GuessNumberAI.new.
Proof.
  pose proof (ascending_StronglySorted _ valid_numbers_ascending) as Hs.
  rewrite new_number_list, new_numbers.
  split.
  { rewrite size_list_to_set by by apply StronglySorted_lt_NoDup.
    apply valid_numbers_length. }
  split; [apply valid_numbers_length|].
  split; [intros key; by rewrite elem_of_list_to_set|].
  split; [|done].
  intros key Hk%elem_of_list_to_set.
  pose proof (valid_numbers_valid key Hk) as Hv.
  apply is_valid_answer_spec in Hv as Hv'. destruct Hv' as (H4 & _ & Hd).
  repeat split; try done.
  pose proof valid_numbers_digits as Hall.
  rewrite forallb_forall in Hall. apply Hall. by apply list_elem_of_In.
Qed.

(** ** _calculate_score *)

(** How many keys of a list fall into bucket [i] for guess [g]. *)
Local Abbreviation tally g l i :=
  (length (filter (λ key, bucket_index g key = Some i) l)).

Lemma list_incr_ok result i :
  i < length result →
  ∃ n, result !! i = Some n ∧ list_incr result i = Ok (<[ i := n + 1 ]> result).
Proof.
  intros [n Hn]%lookup_lt_is_Some_2. exists n. split; [done|].
  unfold list_incr. by rewrite Hn.
Qed.

(** The histogram loop adds to every slot the number of keys that fall
    into it. *)
Lemma histogram_loop g l : ∀ result,
  four g → (∀ key, key ∈ l → four key) → length result = 25 →
  ∃ result',
    for_each (λ result key,
        '(count_a, count_b) ← count_ab g key;
        list_incr result (count_a * 5 + count_b)) l result = Ok result'
    ∧ length result' = 25
    ∧ ∀ i n, result !! i = Some n → result' !! i = Some (n + tally g l i).
Proof.
  induction l as [|key l IH]; intros result Hg Hl Hlen; simpl.
  - exists result. repeat split; [done|]. intros i n ->. f_equal. lia.
  - destruct (count_ab_four g key Hg) as [[a b] E]; [apply Hl; left|].
    pose proof (count_ab_slot _ _ _ E) as Hslot. unfold slot in Hslot.
    simpl in Hslot. rewrite E. simpl.
    destruct (list_incr_ok result (a * 5 + b)) as (n0 & Hn0 & ->); [lia|].
    simpl.
    destruct (IH (<[ a * 5 + b := n0 + 1 ]> result)) as (result' & -> & Hlen' & Hres).
    { done. } { intros k Hk. apply Hl. by right. }
    { by rewrite length_insert. }
    exists result'. repeat split; [done|].
    assert (bucket_index g key = Some (a * 5 + b)) as Hb.
    { unfold bucket_index. by rewrite E. }
    intros i n Hi. rewrite filter_cons.
    destruct (decide (a * 5 + b = i)) as [<-|Hne].
    + rewrite decide_True by done. simpl.
      rewrite (Hres _ (n0 + 1)).
      * f_equal. assert (n = n0) by congruence. lia.
      * apply list_lookup_insert_eq. lia.
    + rewrite decide_False by congruence.
      apply Hres. by rewrite list_lookup_insert_ne.
Qed.

Lemma tally_elements g (X : gset string) i :
  tally g (elements X) i = size (bucket X g i).
Proof.
  unfold bucket, size, set_size. simpl. apply Permutation_length.
  apply NoDup_Permutation.
  - apply NoDup_filter, NoDup_elements.
  - apply NoDup_elements.
  - intros key. rewrite list_elem_of_filter, !elem_of_elements, elem_of_filter.
    done.
Qed.

Lemma calculate_score_spec self g :
  four g → (∀ key, key ∈ _records self → four key) →
  _calculate_score self g = Ok (largest_bucket (_records self) g).
Proof.
  intros Hg Hr. unfold _calculate_score.
  destruct (histogram_loop g (elements (_records self)) (replicate 25 0))
    as (result & -> & Hlen & Hres); [done| |by rewrite length_replicate|].
  { intros key Hk%elem_of_elements. by apply Hr. }
  simpl. f_equal. unfold largest_bucket. f_equal.
  apply list_eq. intros i. rewrite list_lookup_fmap.
  destruct (decide (i < 25)) as [Hi|Hi].
  - rewrite (Hres i 0) by by apply lookup_replicate_2.
    assert (seq 0 25 !! i = Some i) as -> by (apply lookup_seq; lia).
    simpl. f_equal. apply tally_elements.
  - rewrite !lookup_ge_None_2; [done|rewrite length_seq; lia|lia].
Qed.

Lemma py_max_le l n : (∀ x, x ∈ l → x ≤ n) → py_max l ≤ n.
Proof.
  induction l as [|x l IH]; intros H; simpl; [lia|].
  apply Nat.max_lub; [apply H; left|]. apply IH. intros y Hy. apply H. by right.
Qed.

Lemma py_max_ge l n : n ∈ l → n ≤ py_max l.
Proof.
  induction l as [|x l IH]; [by intros ?%elem_of_nil|].
  change (py_max (x :: l)) with (Nat.max x (py_max l)).
  intros [->|Hn]%elem_of_cons; [lia|]. apply IH in Hn. lia.
Qed.



Lemma largest_bucket_le X g : largest_bucket X g ≤ size X.
Proof.
  apply py_max_le. intros n (i & -> & _)%list_elem_of_fmap.
  apply subseteq_size. unfold bucket. intros key [_ ?]%elem_of_filter. done.
Qed.

Lemma largest_bucket_empty g : largest_bucket ∅ g = 0.
Proof.
  pose proof (largest_bucket_le ∅ g) as H. rewrite size_empty in H. lia.
Qed.

(** ** The scan for the least score *)

Lemma first_least_spec sc l g :
  first_least sc l g →
  g ∈ l ∧ (∀ k, k ∈ l → sc g ≤ sc k).
Proof.
  intros (before & after & -> & Hb & Ha). split.
  - apply elem_of_app. right. left.
  - intros k [Hk|[->|Hk]%elem_of_cons]%elem_of_app.
    + apply Hb in Hk. lia.
    + lia.
    + by apply Ha.
Qed.

Lemma select_loop self sc l : ∀ c best,
  (∀ key, key ∈ l → _calculate_score self key = Ok (sc key)) →
  (for_each (select_step self) l (c, best) = Ok (c, best)
   ∧ ∀ k, k ∈ l → best ≤ sc k)
  ∨ (∃ g, for_each (select_step self) l (c, best) = Ok (g, sc g)
          ∧ sc g < best ∧ first_least sc l g).
Proof.
  induction l as [|key l IH]; intros c best Hsc; simpl.
  - left. split; [done|]. intros k Hk. by apply elem_of_nil in Hk.
  - assert (select_step self (c, best) key
            = Ok (if sc key <? best then (key, sc key) else (c, best))) as ->.
    { unfold select_step. rewrite Hsc by left. simpl. by case_match. }
    simpl.
    assert (∀ k, k ∈ l → _calculate_score self k = Ok (sc k)) as Hsc'.
    { intros k Hk. apply Hsc. by right. }
    destruct (Nat.ltb_spec (sc key) best) as [Hlt|Hge].
    + right. destruct (IH key (sc key) Hsc') as [[-> Hall]|(g & -> & Hg & Hfirst)].
      * exists key. repeat split; [done|]. exists [], l. repeat split; [|done].
        intros k Hk. by apply elem_of_nil in Hk.
      * exists g. repeat split; [lia|].
        destruct Hfirst as (before & after & -> & Hb & Ha).
        exists (key :: before), after. repeat split; [|done].
        intros k [->|Hk]%elem_of_cons; [done|by apply Hb].
    + destruct (IH c best Hsc') as [[-> Hall]|(g & -> & Hg & Hfirst)].
      * left. split; [done|]. intros k [->|Hk]%elem_of_cons; [done|by apply Hall].
      * right. exists g. repeat split; [done|].
        destruct Hfirst as (before & after & -> & Hb & Ha).
        exists (key :: before), after. repeat split; [|done].
        intros k [->|Hk]%elem_of_cons; [lia|by apply Hb].
Qed.

(** ** The decision tree *)

Lemma node_at_app n p q :
  node_at n (p ++ q) = node_at n p ≫= λ m, node_at m q.
Proof.
  revert n. induction p as [|i p IH]; intros n; simpl; [done|].
  destruct (next n !! i) as [[child|]|]; simpl; auto.
Qed.

Lemma node_at_cons_Some n i p m :
  node_at n (i :: p) = Some m ↔
  ∃ child, next n !! i = Some (Some child) ∧ node_at child p = Some m.
Proof.
  simpl. destruct (next n !! i) as [[child|]|]; split;
    try (intros (? & [=] & _); fail); try done.
  - eauto.
  - by intros (c & [= ->] & ?).
Qed.

Lemma new_TreeNode_leaf g p m :
  node_at (new_TreeNode g) p = Some m → p = [] ∧ m = new_TreeNode g.
Proof.
  destruct p as [|i p]; [by intros [= <-]|].
  intros (c & E & _)%node_at_cons_Some.
  unfold new_TreeNode in E. cbn [next] in E.
  apply lookup_replicate in E as [[=] _].
Qed.

Lemma tree_ok_new g : four g → tree_ok (new_TreeNode g).
Proof. intros Hg p m [-> ->]%new_TreeNode_leaf. by split. Qed.

Lemma tree_ok_child n i child :
  tree_ok n → next n !! i = Some (Some child) → tree_ok child.
Proof.
  intros Hn Hi p m Hp. apply (Hn (i :: p)). apply node_at_cons_Some. eauto.
Qed.

Lemma tree_ok_node_at n p m : tree_ok n → node_at n p = Some m → tree_ok m.
Proof.
  intros Hn Hp q m' Hq. apply (Hn (p ++ q)). rewrite node_at_app, Hp. done.
Qed.

Lemma extends_refl n : extends n n.
Proof. intros p m Hp. eauto. Qed.

Lemma extends_trans n1 n2 n3 : extends n1 n2 → extends n2 n3 → extends n1 n3.
Proof.
  intros H12 H23 p m Hp.
  destruct (H12 p m Hp) as (m2 & Hp2 & <-). apply (H23 p m2 Hp2).
Qed.

(** Putting a subtree that extends the old one into a slot extends the
    tree. *)
Lemma extends_insert n i child child' :
  next n !! i = Some (Some child) → extends child child' →
  extends n (mkTreeNode (record n) (<[ i := Some child' ]> (next n))).
Proof.
  intros Hi Hc [|j p] m.
  - intros [= <-]. eexists. split; [done|]. done.
  - intros (c & Hj & Hp)%node_at_cons_Some.
    destruct (decide (i = j)) as [<-|Hne].
    + assert (c = child) as -> by congruence.
      destruct (Hc p m Hp) as (m' & Hp' & Hr). exists m'. split; [|done].
      apply node_at_cons_Some. exists child'. split; [|done]. simpl.
      apply list_lookup_insert_eq. by eapply lookup_lt_Some.
    + exists m. split; [|done]. apply node_at_cons_Some. exists c.
      split; [|done]. simpl. by rewrite list_lookup_insert_ne.
Qed.

Lemma extends_fill n i g :
  next n !! i = Some None →
  extends n (mkTreeNode (record n) (<[ i := Some (new_TreeNode g) ]> (next n))).
Proof.
  intros Hi [|j p] m.
  - intros [= <-]. eexists. split; [done|]. done.
  - intros (c & Hj & Hp)%node_at_cons_Some.
    assert (i ≠ j) by congruence.
    exists m. split; [|done]. apply node_at_cons_Some. exists c.
    split; [|done]. simpl. by rewrite list_lookup_insert_ne.
Qed.

Lemma tree_ok_insert n i child' :
  tree_ok n → tree_ok child' →
  tree_ok (mkTreeNode (record n) (<[ i := Some child' ]> (next n))).
Proof.
  intros Hn Hc [|j p] m.
  - intros [= <-]. simpl. rewrite length_insert. apply (Hn []). done.
  - intros (c & Hj & Hp)%node_at_cons_Some. simpl in Hj.
    destruct (decide (i = j)) as [<-|Hne].
    + apply list_lookup_insert_Some in Hj as [(_ & [= <-] & _)|[? _]]; [|done].
      by apply (Hc p).
    + rewrite list_lookup_insert_ne in Hj by done.
      apply (Hn (j :: p)). apply node_at_cons_Some. eauto.
Qed.

(** When every edge of the log is there, the loop over the log ends at
    the node of the log's path. *)
Lemma walk_log_node_at log : ∀ n m,
  node_at n (map slot log) = Some m → walk_log n log = Ok m.
Proof.
  induction log as [|key log IH]; intros n m; simpl.
  - by intros [= ->].
  - unfold slot at 1. destruct (next n !! (key.1 * 5 + key.2)) as [[c|]|]; try done.
    apply IH.
Qed.

Lemma search_tree_node_at self a b m :
  node_at (root (_tree self)) (map slot (_log self)) = Some m →
  _search_tree self a b =
    match next m !! (a * 5 + b) with
    | None => Raise IndexError
    | Some None => Ok EmptyString
    | Some (Some child) => Ok (record child)
    end.
Proof. intros H. unfold _search_tree. by rewrite (walk_log_node_at _ _ _ H). Qed.

(** What [update_node] does when every edge of the log is there and the
    slot of the newest Feedback Pair is in range. *)
Lemma update_node_filled log g a b : ∀ n m child,
  node_at n (map slot log) = Some m →
  next m !! (a * 5 + b) = Some (Some child) →
  update_node n log g a b = Ok n.
Proof.
  induction log as [|key log IH]; intros n m child; simpl.
  - intros [= ->] ->. done.
  - unfold slot at 1.
    destruct (next n !! (key.1 * 5 + key.2)) as [[c|]|] eqn:E; try done.
    intros Hm Hs. rewrite (IH c m child Hm Hs). simpl.
    destruct n as [r nx]. simpl in *. f_equal. f_equal.
    by apply list_insert_id.
Qed.

Lemma update_node_empty log g a b : ∀ n m,
  tree_ok n → four g →
  node_at n (map slot log) = Some m →
  next m !! (a * 5 + b) = Some None →
  ∃ n',
    update_node n log g a b = Ok n'
    ∧ extends n n'
    ∧ tree_ok n'
    ∧ node_at n' (map slot log ++ [a * 5 + b]) = Some (new_TreeNode g).
Proof.
  induction log as [|key log IH]; intros n m Hn Hg; simpl.
  - intros [= ->] Hs. rewrite Hs. eexists. split; [done|].
    split; [by apply extends_fill|].
    split; [by apply tree_ok_insert, tree_ok_new|]. cbn [next].
    rewrite list_lookup_insert_eq by by eapply lookup_lt_Some. done.
  - unfold slot at 1 3.
    destruct (next n !! (key.1 * 5 + key.2)) as [[c|]|] eqn:E; try done.
    intros Hm Hs.
    destruct (IH c m (tree_ok_child _ _ _ Hn E) Hg Hm Hs)
      as (c' & -> & Hext & Hok & Hnew).
    simpl. eexists. split; [done|].
    split; [by eapply extends_insert|].
    split; [by apply tree_ok_insert|].
    cbn [node_at next]. rewrite list_lookup_insert_eq by by eapply lookup_lt_Some.
    done.
Qed.

(** ** What holds of every reachable engine *)

Lemma valid_numbers_NoDup : NoDup valid_numbers.
Proof.
  apply StronglySorted_lt_NoDup, ascending_StronglySorted, valid_numbers_ascending.
Qed.

Lemma valid_numbers_size : size (list_to_set valid_numbers : gset string) = 5040.
Proof.
  rewrite size_list_to_set by apply valid_numbers_NoDup.
  apply valid_numbers_length.
Qed.

Lemma valid_numbers_four key : key ∈ valid_numbers → four key.
Proof. intros H. by apply is_valid_answer_four, valid_numbers_valid. Qed.

Lemma initial_best_large : 5040 < initial_best.
Proof. apply Nat.ltb_lt. vm_compute. reflexivity. Qed.

Section EngineOk.
Context (self : GuessNumberAI.t) (Hok : engine_ok self).

Lemma ok_numbers_four key : key ∈ _numbers self → four key.
Proof.
  rewrite (ok_numbers _ Hok), elem_of_list_to_set. apply valid_numbers_four.
Qed.

Lemma ok_records_four key : key ∈ _records self → four key.
Proof. intros H. apply ok_numbers_four. by apply (ok_records _ Hok). Qed.

Lemma ok_list_four key : key ∈ _number_list self → four key.
Proof. rewrite (ok_list _ Hok). apply valid_numbers_four. Qed.

Lemma ok_records_size : size (_records self) < initial_best.
Proof.
  pose proof (subseteq_size _ _ (ok_records _ Hok)) as H.
  rewrite (ok_numbers _ Hok), valid_numbers_size in H.
  pose proof initial_best_large. lia.
Qed.

Lemma ok_calculate_score key :
  key ∈ _number_list self →
  _calculate_score self key = Ok (largest_bucket (_records self) key).
Proof.
  intros Hk. apply calculate_score_spec; [by apply ok_list_four|].
  apply ok_records_four.
Qed.

(** On such an engine the scan returns, and returns the first key of
    the list with the least score. *)
Lemma select_ok :
  ∃ g, select self = Ok (g, largest_bucket (_records self) g)
       ∧ first_least (largest_bucket (_records self)) (_number_list self) g.
Proof.
  unfold select.
  destruct (select_loop self (largest_bucket (_records self))
              (_number_list self) EmptyString initial_best ok_calculate_score)
    as [[_ Hall]|(g & Hg & _ & Hfirst)]; [|eauto].
  exfalso. destruct valid_numbers_head as [l Hl].
  specialize (Hall "0123"). rewrite (ok_list _ Hok), Hl in Hall.
  specialize (Hall ltac:(left)).
  pose proof (largest_bucket_le (_records self) "0123").
  pose proof ok_records_size. lia.
Qed.

End EngineOk.

Lemma next_iter_single X :
  size X = 1 → ∃ x, X = {[ x ]} ∧ next_iter X = Ok x.
Proof.
  intros [x Hx%leibniz_equiv]%size_1_elem_of. exists x. split; [done|].
  unfold next_iter. by rewrite Hx, elements_singleton.
Qed.

Lemma engine_ok_new : engine_ok GuessNumberAI.new.
Proof.
  split.
  - apply new_numbers.
  - apply new_number_list.
  - rewrite new_records, new_numbers. apply reflexivity.
  - by left.
  - apply (tree_ok_new "0123"). done.
  - by eexists.
Qed.

Lemma engine_ok_initialize self : engine_ok self → engine_ok (initialize self).
Proof.
  intros Hok. split.
  - apply (ok_numbers _ Hok).
  - apply (ok_list _ Hok).
  - intros key Hkey. exact Hkey.
  - by left.
  - apply (ok_tree _ Hok).
  - by eexists.
Qed.

Lemma engine_ok_filter self a b self' :
  engine_ok self → _filter_record self a b = Ok self' → engine_ok self'.
Proof.
  intros Hok (Hsub & Hprev & Hlg & Hnum & Hlist & Htree)%filter_record_frame.
  split; rewrite ?Hprev, ?Hlg, ?Hnum, ?Hlist, ?Htree.
  - apply (ok_numbers _ Hok).
  - apply (ok_list _ Hok).
  - pose proof (ok_records _ Hok). set_solver.
  - apply (ok_previous _ Hok).
  - apply (ok_tree _ Hok).
  - apply (ok_log _ Hok).
Qed.

(** ** The branches of [guess] *)

Lemma guess_opening self :
  guess_traced self None
  = (set_previous (initialize self) "0123", Ok "0123", Opening).
Proof. reflexivity. Qed.

Lemma guess_parse_raises self r e :
  parse_result r = Raise e → guess_traced self (Some r) = (self, Raise e, Raised).
Proof. intros H. unfold guess_traced. by rewrite H. Qed.

Lemma guess_filter_raises self r a b e :
  parse_result r = Ok (a, b) → _filter_record self a b = Raise e →
  guess_traced self (Some r) = (self, Raise e, Raised).
Proof. intros H1 H2. unfold guess_traced. by rewrite H1, H2. Qed.

Section Guess.
Context (self self1 : GuessNumberAI.t) (r : string) (a b : nat).
Context (Hok : engine_ok self).
Context (Hparse : parse_result r = Ok (a, b)).
Context (Hfilter : _filter_record self a b = Ok self1).

Lemma guess_single :
  size (_records self1) = 1 →
  ∃ x, _records self1 = {[ x ]}
       ∧ guess_traced self (Some r) = (self1, Ok x, Single).
Proof.
  intros Hsize. destruct (next_iter_single _ Hsize) as (x & Hx & Hnext).
  exists x. split; [done|].
  unfold guess_traced. rewrite Hparse, Hfilter, Hsize, Hnext. done.
Qed.

Lemma guess_out_of_range :
  size (_records self1) ≠ 1 → 25 ≤ a * 5 + b →
  guess_traced self (Some r) = (self1, Raise IndexError, Raised).
Proof.
  intros Hsize Hslot. apply Nat.eqb_neq in Hsize.
  pose proof (engine_ok_filter _ _ _ _ Hok Hfilter) as Hok1.
  destruct (ok_log _ Hok1) as [m Hm].
  unfold guess_traced. rewrite Hparse, Hfilter, Hsize.
  rewrite (search_tree_node_at _ _ _ _ Hm).
  destruct (ok_tree _ Hok1 _ _ Hm) as [Hlen _].
  rewrite lookup_ge_None_2 by lia. done.
Qed.

Lemma guess_hit m child :
  size (_records self1) ≠ 1 →
  node_at (root (_tree self1)) (map slot (_log self1)) = Some m →
  next m !! (a * 5 + b) = Some (Some child) →
  guess_traced self (Some r)
  = (log_append (set_previous self1 (record child)) (a, b),
     Ok (record child), CacheHit).
Proof.
  intros Hsize Hm Hchild. apply Nat.eqb_neq in Hsize.
  pose proof (engine_ok_filter _ _ _ _ Hok Hfilter) as Hok1.
  unfold guess_traced. rewrite Hparse, Hfilter, Hsize.
  rewrite (search_tree_node_at _ _ _ _ Hm), Hchild.
  assert (four (record child)) as Hfour.
  { apply (ok_tree _ Hok1 (map slot (_log self1) ++ [a * 5 + b])).
    rewrite node_at_app, Hm. simpl. by rewrite Hchild. }
  destruct (record child) as [|c s]; [done|]. done.
Qed.

Lemma guess_miss m :
  size (_records self1) ≠ 1 →
  node_at (root (_tree self1)) (map slot (_log self1)) = Some m →
  next m !! (a * 5 + b) = Some None →
  ∃ g root' self2,
    first_least (largest_bucket (_records self1)) (_number_list self1) g
    ∧ update_node (root (_tree self1)) (_log self1) g a b = Ok root'
    ∧ _update_tree self1 g a b = Ok self2
    ∧ guess_traced self (Some r)
      = (log_append (set_previous self2 g) (a, b), Ok g, Minimax)
    ∧ extends (root (_tree self1)) root'
    ∧ tree_ok root'
    ∧ node_at root' (map slot (_log self1) ++ [a * 5 + b])
      = Some (new_TreeNode g).
Proof.
  intros Hsize Hm Hchild. apply Nat.eqb_neq in Hsize.
  pose proof (engine_ok_filter _ _ _ _ Hok Hfilter) as Hok1.
  destruct (select_ok _ Hok1) as (g & Hsel & Hfirst).
  assert (four g) as Hg.
  { apply (ok_list_four _ Hok1). by apply first_least_spec in Hfirst as [? _]. }
  destruct (update_node_empty (_log self1) g a b _ _ (ok_tree _ Hok1) Hg Hm Hchild)
    as (root' & Hupd & Hext & Htree & Hnew).
  exists g, root'. eexists. split; [done|]. split; [done|].
  unfold guess_traced, _update_tree.
  rewrite Hparse, Hfilter, Hsize, (search_tree_node_at _ _ _ _ Hm), Hchild.
  simpl. rewrite Hsel. simpl. rewrite Hupd. simpl. done.
Qed.

End Guess.

Lemma update_tree_frame self g a b self2 :
  _update_tree self g a b = Ok self2 →
  _previous self2 = _previous self ∧ _log self2 = _log self
  ∧ _records self2 = _records self ∧ _numbers self2 = _numbers self
  ∧ _number_list self2 = _number_list self
  ∧ update_node (root (_tree self)) (_log self) g a b = Ok (root (_tree self2)).
Proof.
  unfold _update_tree. destruct (update_node _ _ _ _ _) as [root'|]; [|done].
  simpl. intros [= <-]. done.
Qed.

(** Every call with a feedback string goes one of the six ways. *)
Lemma guess_cases self r :
  engine_ok self → guess_case self r (guess_traced self (Some r)).
Proof.
  intros Hok.
  destruct (parse_result r) as [[a b]|e] eqn:Hparse.
  2:{ rewrite (guess_parse_raises _ _ _ Hparse). by constructor. }
  destruct (_filter_record self a b) as [self1|e] eqn:Hfilter.
  2:{ rewrite (guess_filter_raises _ _ _ _ _ Hparse Hfilter).
      by eapply case_filter_raises. }
  pose proof (engine_ok_filter _ _ _ _ Hok Hfilter) as Hok1.
  destruct (decide (size (_records self1) = 1)) as [Hsize|Hsize].
  { destruct (guess_single _ _ _ _ _ Hparse Hfilter Hsize) as (x & Hx & ->).
    by eapply case_single. }
  destruct (ok_log _ Hok1) as [m Hm].
  destruct (next m !! (a * 5 + b)) as [[child|]|] eqn:Hslot.
  - rewrite (guess_hit _ _ _ _ _ Hok Hparse Hfilter m child) by done.
    by eapply case_hit.
  - destruct (guess_miss _ _ _ _ _ Hok Hparse Hfilter m Hsize Hm Hslot)
      as (g & root' & self2 & Hfirst & Hupd & Hupd' & -> & Hext & Htree & Hnew).
    eapply case_miss; try done.
    apply update_tree_frame in Hupd' as (_ & _ & _ & _ & _ & Hr).
    rewrite Hupd in Hr. injection Hr as Hr. destruct (_tree self2). simpl in *.
    by subst.
  - rewrite (guess_out_of_range _ _ _ _ _ Hok Hparse Hfilter) by
      (done || (apply lookup_ge_None_1 in Hslot;
                destruct (ok_tree _ Hok1 _ _ Hm) as [Hlen _]; lia)).
    eapply case_out_of_range; try done.
    apply lookup_ge_None_1 in Hslot.
    destruct (ok_tree _ Hok1 _ _ Hm) as [Hlen _]. lia.
Qed.

Lemma engine_ok_set_previous self g :
  engine_ok self → four g → engine_ok (set_previous self g).
Proof.
  intros Hok Hg. split; simpl.
  - apply (ok_numbers _ Hok).
  - apply (ok_list _ Hok).
  - apply (ok_records _ Hok).
  - by right.
  - apply (ok_tree _ Hok).
  - apply (ok_log _ Hok).
Qed.

Lemma engine_ok_guess_case self r out :
  engine_ok self → guess_case self r out → engine_ok out.1.1.
Proof.
  intros Hok Hcase.
  destruct Hcase as [e Hparse|a b e Hparse Hfilter|a b self1 x Hparse Hfilter Hx
    |a b self1 Hparse Hfilter Hsize Hslot
    |a b self1 m child Hparse Hfilter Hsize Hm Hchild
    |a b self1 m g root' self2 Hparse Hfilter Hsize Hm Hchild Hfirst Hupd Hroot
       Hext Htree Hnew]; cbn [fst].
  - exact Hok.
  - exact Hok.
  - exact (engine_ok_filter _ _ _ _ Hok Hfilter).
  - exact (engine_ok_filter _ _ _ _ Hok Hfilter).
  - pose proof (engine_ok_filter _ _ _ _ Hok Hfilter) as Hok1.
    assert (node_at (root (_tree self1)) (map slot (_log self1 ++ [(a, b)]))
            = Some child) as Hpath.
    { rewrite map_app, node_at_app, Hm. simpl. unfold slot at 1. simpl.
      by rewrite Hchild. }
    split; simpl.
    + apply (ok_numbers _ Hok1).
    + apply (ok_list _ Hok1).
    + apply (ok_records _ Hok1).
    + right. by apply (ok_tree _ Hok1 _ _ Hpath).
    + apply (ok_tree _ Hok1).
    + by eexists.
  - pose proof (engine_ok_filter _ _ _ _ Hok Hfilter) as Hok1.
    apply update_tree_frame in Hupd as (Hp & Hl & Hr & Hn & Hnl & _).
    split; simpl; rewrite ?Hp, ?Hl, ?Hr, ?Hn, ?Hnl, ?Hroot; simpl.
    + apply (ok_numbers _ Hok1).
    + apply (ok_list _ Hok1).
    + apply (ok_records _ Hok1).
    + right. apply (ok_list_four _ Hok1).
      by apply first_least_spec in Hfirst as [? _].
    + done.
    + rewrite map_app. simpl. unfold slot at 2. simpl. rewrite Hnew. by eexists.
Qed.

Lemma engine_ok_guess self result :
  engine_ok self → engine_ok (guess_traced self result).1.1.
Proof.
  intros Hok. destruct result as [r|].
  - eapply engine_ok_guess_case; [done|]. by apply guess_cases.
  - rewrite guess_opening. simpl.
    apply engine_ok_set_previous; [|done]. by apply engine_ok_initialize.
Qed.

Lemma reachable_ok self : reachable self → engine_ok self.
Proof.
  induction 1 as [|self _ IH|self result _ IH].
  - apply engine_ok_new.
  - by apply engine_ok_initialize.
  - by apply engine_ok_guess.
Qed.

(** ** Two sessions on one engine *)

Lemma filter_record_same t1 t2 a b :
  same_game t1 t2 →
  match _filter_record t1 a b, _filter_record t2 a b with
  | Ok f1, Ok f2 => same_game f1 f2 ∧ _tree f2 = _tree t2
  | Raise e1, Raise e2 => e1 = e2
  | _, _ => False
  end.
Proof.
  destruct t1 as [p1 l1 r1 n1 nl1 tr1], t2 as [p2 l2 r2 n2 nl2 tr2].
  unfold same_game. cbn. intros (-> & -> & -> & -> & ->).
  unfold _filter_record, _check_result. cbn.
  destruct (for_each _ (elements r2) []) as [dl|e]; cbn; [|reflexivity].
  destruct (for_each set_remove dl r2) as [X|e]; cbn; [|reflexivity].
  repeat split.
Qed.

Lemma guess_case_extends self r out :
  guess_case self r out → extends (root (_tree self)) (root (_tree out.1.1)).
Proof.
  intros Hcase.
  destruct Hcase as [e Hparse|a b e Hparse Hfilter|a b self1 x Hparse Hfilter Hx
    |a b self1 Hparse Hfilter Hsize Hslot
    |a b self1 m child Hparse Hfilter Hsize Hm Hchild
    |a b self1 m g root' self2 Hparse Hfilter Hsize Hm Hchild Hfirst Hupd Hroot
       Hext Htree Hnew]; cbn [fst];
    try apply extends_refl;
    apply filter_record_frame in Hfilter as (_ & _ & _ & _ & _ & Ht).
  - rewrite Ht. apply extends_refl.
  - rewrite Ht. apply extends_refl.
  - cbn. rewrite Ht. apply extends_refl.
  - cbn. rewrite Hroot. cbn. by rewrite <-Ht.
Qed.

Lemma feed_cons self r fs :
  feed self (r :: fs)
  = ((feed (guess_traced self (Some r)).1.1 fs).1,
     ((guess_traced self (Some r)).1.2, (guess_traced self (Some r)).2)
       :: (feed (guess_traced self (Some r)).1.1 fs).2).
Proof.
  cbn [feed]. destruct (guess_traced self (Some r)) as [[s o] br]. cbn [fst snd].
  by destruct (feed s fs).
Qed.

Lemma engine_ok_feed fs : ∀ self, engine_ok self → engine_ok (feed self fs).1.
Proof.
  induction fs as [|r fs IH]; intros self Hok; [exact Hok|].
  rewrite feed_cons. cbn [fst]. apply IH. by apply engine_ok_guess.
Qed.

Lemma feed_extends fs : ∀ self,
  engine_ok self → extends (root (_tree self)) (root (_tree (feed self fs).1)).
Proof.
  induction fs as [|r fs IH]; intros self Hok; [apply extends_refl|].
  rewrite feed_cons. cbn [fst].
  eapply extends_trans; [|apply IH; by apply engine_ok_guess].
  apply (guess_case_extends self r). by apply guess_cases.
Qed.

Lemma node_at_snoc n p i c :
  node_at n (p ++ [i]) = Some c ↔
  ∃ m, node_at n p = Some m ∧ next m !! i = Some (Some c).
Proof.
  rewrite node_at_app. split.
  - destruct (node_at n p) as [m|]; cbn; [|done].
    destruct (next m !! i) as [[c'|]|] eqn:E; cbn; try done.
    intros [= ->]. eauto.
  - intros (m & -> & Hi). cbn. by rewrite Hi.
Qed.

(** One call in the second session, next to the same call in the first:
    the tree of the second session already extends the tree the first
    session has after the call. *)
Lemma guess_twice t1 t2 r :
  engine_ok t1 → engine_ok t2 → same_game t1 t2 →
  extends (root (_tree (guess_traced t1 (Some r)).1.1)) (root (_tree t2)) →
  ∃ t2' br2,
    guess_traced t2 (Some r) = (t2', (guess_traced t1 (Some r)).1.2, br2)
    ∧ br2 ≠ Minimax
    ∧ same_game (guess_traced t1 (Some r)).1.1 t2'
    ∧ _tree t2' = _tree t2.
Proof.
  intros Hok1 Hok2 Hsame.
  destruct (guess_cases t1 r Hok1) as [e Hparse|a b e Hparse Hfilter
    |a b self1 x Hparse Hfilter Hx
    |a b self1 Hparse Hfilter Hsize Hslot
    |a b self1 m child Hparse Hfilter Hsize Hm Hchild
    |a b self1 m g root' self2 Hparse Hfilter Hsize Hm Hchild Hfirst Hupd Hroot
       Hext' Htree Hnew]; cbn [fst snd]; intros Hext.
  - exists t2, Raised. by rewrite (guess_parse_raises _ _ _ Hparse).
  - pose proof (filter_record_same t1 t2 a b Hsame) as Hf. rewrite Hfilter in Hf.
    destruct (_filter_record t2 a b) as [f2|e2] eqn:Hfilter2; [done|]. subst e2.
    exists t2, Raised. by rewrite (guess_filter_raises _ _ _ _ _ Hparse Hfilter2).
  - pose proof (filter_record_same t1 t2 a b Hsame) as Hf. rewrite Hfilter in Hf.
    destruct (_filter_record t2 a b) as [f2|e2] eqn:Hfilter2; [|done].
    destruct Hf as [Hsame' Htree'].
    assert (size (_records f2) = 1) as Hsize.
    { destruct Hsame' as (_ & _ & <- & _). rewrite Hx. apply size_singleton. }
    destruct (guess_single _ _ _ _ _ Hparse Hfilter2 Hsize) as (x' & Hx' & ->).
    assert (x' = x) as ->.
    { destruct Hsame' as (_ & _ & Hr & _). rewrite Hx, Hx' in Hr.
      symmetry. apply (inj (singleton (B:=gset string))) in Hr. done. }
    by exists f2, Single.
  - pose proof (filter_record_same t1 t2 a b Hsame) as Hf. rewrite Hfilter in Hf.
    destruct (_filter_record t2 a b) as [f2|e2] eqn:Hfilter2; [|done].
    destruct Hf as [Hsame' Htree'].
    assert (size (_records f2) ≠ 1) as Hsize2.
    { destruct Hsame' as (_ & _ & <- & _). done. }
    exists f2, Raised.
    by rewrite (guess_out_of_range _ _ _ _ _ Hok2 Hparse Hfilter2 Hsize2 Hslot).
  - pose proof (filter_record_same t1 t2 a b Hsame) as Hf. rewrite Hfilter in Hf.
    destruct (_filter_record t2 a b) as [f2|e2] eqn:Hfilter2; [|done].
    destruct Hf as [Hsame' Htree'].
    assert (size (_records f2) ≠ 1) as Hsize2.
    { destruct Hsame' as (_ & _ & <- & _). done. }
    cbn in Hext.
    destruct (Hext (map slot (_log self1) ++ [a * 5 + b]) child)
      as (c2 & Hc2 & Hrec).
    { apply node_at_snoc. eauto. }
    apply node_at_snoc in Hc2 as (m2 & Hm2 & Hchild2).
    destruct Hsame' as (Hp & Hl & Hr & Hn & Hnl).
    rewrite Hl, <-Htree' in Hm2.
    rewrite (guess_hit _ _ _ _ _ Hok2 Hparse Hfilter2 m2 c2 Hsize2 Hm2 Hchild2).
    rewrite Hrec. eexists _, CacheHit. split; [done|]. split; [done|].
    split; [|done]. unfold same_game. cbn. by rewrite Hl, Hr, Hn, Hnl.
  - pose proof (filter_record_same t1 t2 a b Hsame) as Hf. rewrite Hfilter in Hf.
    destruct (_filter_record t2 a b) as [f2|e2] eqn:Hfilter2; [|done].
    destruct Hf as [Hsame' Htree'].
    assert (size (_records f2) ≠ 1) as Hsize2.
    { destruct Hsame' as (_ & _ & <- & _). done. }
    cbn in Hext. rewrite Hroot in Hext. cbn in Hext.
    destruct (Hext _ _ Hnew) as (c2 & Hc2 & Hrec). cbn in Hrec.
    apply node_at_snoc in Hc2 as (m2 & Hm2 & Hchild2).
    destruct Hsame' as (Hp & Hl & Hr & Hn & Hnl).
    rewrite Hl, <-Htree' in Hm2.
    rewrite (guess_hit _ _ _ _ _ Hok2 Hparse Hfilter2 m2 c2 Hsize2 Hm2 Hchild2).
    rewrite Hrec. eexists _, CacheHit. split; [done|]. split; [done|].
    split; [|done].
    apply update_tree_frame in Hupd as (Hp2 & Hl2 & Hr2 & Hn2 & Hnl2 & _).
    unfold same_game. cbn. by rewrite Hl2, Hr2, Hn2, Hnl2, Hl, Hr, Hn, Hnl.
Qed.

Lemma feed_twice fs : ∀ t1 t2,
  engine_ok t1 → engine_ok t2 → same_game t1 t2 →
  extends (root (_tree (feed t1 fs).1)) (root (_tree t2)) →
  (feed t1 fs).2.*1 = (feed t2 fs).2.*1
  ∧ Forall (λ o, o.2 ≠ Minimax) (feed t2 fs).2
  ∧ _tree (feed t2 fs).1 = _tree t2.
Proof.
  induction fs as [|r fs IH]; intros t1 t2 Hok1 Hok2 Hsame Hext.
  - cbn. by repeat split.
  - rewrite !feed_cons in *. cbn [fst snd] in *.
    pose proof (engine_ok_guess t1 (Some r) Hok1) as Hok1'.
    pose proof (engine_ok_guess t2 (Some r) Hok2) as Hok2'.
    destruct (guess_twice t1 t2 r Hok1 Hok2 Hsame) as (t2' & br2 & E & Hbr & Hsame' & Htree).
    { eapply extends_trans; [|exact Hext]. by apply feed_extends. }
    rewrite E in *. cbn [fst snd] in *.
    destruct (IH _ t2' Hok1' Hok2' Hsame') as (Houts & Hall & Htree').
    { by rewrite Htree. }
    rewrite fmap_cons, (fmap_cons fst). cbn [fst snd].
    split; [by rewrite Houts|]. split; [by constructor|]. by rewrite Htree'.
Qed.

(** C6. Two sessions played one after the other on the same engine with
    the same feedback strings: every call of the second session returns
    (or raises) what the same call of the first session did, no call of the
    second session runs the scan for the least score, and the second
    session leaves the decision tree as the first one left it. *)
Theorem C6_cache_consistency (self : GuessNumberAI.t) (feedback : list string) :
  reachable self →
  (session self feedback).2.*1
  = (session (session self feedback).1 feedback).2.*1
  ∧ Forall (λ o, o.2 ≠ Minimax) (session (session self feedback).1 feedback).2
  ∧ _tree (session (session self feedback).1 feedback).1
    = _tree (session self feedback).1.
Proof.
  intros Hok%reachable_ok.
  assert (∀ s, session s feedback
    = ((feed (set_previous (initialize (initialize s)) "0123") feedback).1,
       (Ok "0123", Opening)
         :: (feed (set_previous (initialize (initialize s)) "0123") feedback).2))
    as Hsession.
  { intros s. unfold session. rewrite guess_opening.
    by destruct (feed _ feedback). }
  rewrite !Hsession. cbn [fst snd].
  set (t1 := set_previous (initialize (initialize self)) "0123").
  assert (engine_ok t1) as Hok1.
  { apply engine_ok_set_previous; [|done]. by do 2 apply engine_ok_initialize. }
  pose proof (engine_ok_feed feedback t1 Hok1) as Hokf.
  set (t2 := set_previous (initialize (initialize (feed t1 feedback).1)) "0123").
  assert (engine_ok t2) as Hok2.
  { apply engine_ok_set_previous; [|done]. by do 2 apply engine_ok_initialize. }
  destruct (feed_twice feedback t1 t2 Hok1 Hok2) as (Houts & Hall & Htree).
  - unfold same_game, t1, t2. cbn.
    rewrite (ok_numbers _ Hok), (ok_numbers _ Hokf).
    rewrite (ok_list _ Hok), (ok_list _ Hokf). repeat split.
  - apply extends_refl.
  - rewrite !fmap_cons, Houts. split; [reflexivity|].
    split; [|exact Htree]. constructor; [|exact Hall]. cbn. discriminate.
Qed.

Lemma C6_cache_consistency_witness :
  (session GuessNumberAI.new ["0A2B"; "1A1B"]).2.*1
  = (session (session GuessNumberAI.new ["0A2B"; "1A1B"]).1 ["0A2B"; "1A1B"]).2.*1
  ∧ Forall (λ o, o.2 ≠ Minimax)
      (session (session GuessNumberAI.new ["0A2B"; "1A1B"]).1 ["0A2B"; "1A1B"]).2
  ∧ _tree (session (session GuessNumberAI.new ["0A2B"; "1A1B"]).1 ["0A2B"; "1A1B"]).1
    = _tree (session GuessNumberAI.new ["0A2B"; "1A1B"]).1.
Proof. apply (C6_cache_consistency GuessNumberAI.new ["0A2B"; "1A1B"]), reach_new. Defined.

(** ** The single-record shortcut *)

(** C10. When filtering leaves exactly one member [x], [guess] returns [x]
    and the engine is the filtered engine: the History Log, the previous
    guess and the decision tree are those from before the call.  The next
    call therefore checks records against that older previous guess, and
    searches the tree with that unextended log. *)
Theorem C10_single_record_shortcut
    (self self1 : GuessNumberAI.t) (r : string) (a b : nat) (x : string) :
  parse_result r = Ok (a, b) →
  _filter_record self a b = Ok self1 →
  _records self1 = {[ x ]} →
  guess self (Some r) = (self1, Ok x)
  ∧ (guess_traced self (Some r)).2 = Single
  ∧ _log self1 = _log self
  ∧ _previous self1 = _previous self
  ∧ _tree self1 = _tree self
  ∧ (∀ key a2 b2, _check_result self1 key a2 b2 = _check_result self key a2 b2)
  ∧ (∀ a2 b2, four x → four (_previous self) →
       ∃ self2, _filter_record self1 a2 b2 = Ok self2
                ∧ _records self2 = filter (consistent (_previous self) a2 b2) {[ x ]})
  ∧ (∀ a2 b2, _search_tree self1 a2 b2 = _search_tree self a2 b2).
Proof.
  intros Hparse Hfilter Hx.
  assert (size (_records self1) = 1) as Hsize by (rewrite Hx; apply size_singleton).
  destruct (guess_single _ _ _ _ _ Hparse Hfilter Hsize) as (x' & Hx' & E).
  assert (x' = x) as ->.
  { rewrite Hx in Hx'. by apply (inj (singleton (B:=gset string))) in Hx'. }
  destruct (filter_record_frame _ _ _ _ Hfilter) as (_ & Hp & Hl & _ & _ & Ht).
  unfold guess. rewrite E. cbn [fst snd].
  repeat split; try done.
  - intros key a2 b2. unfold _check_result. by rewrite Hp.
  - intros a2 b2 Hfx Hfp.
    destruct (filter_record_four self1 a2 b2) as (self2 & E2 & Hrec).
    + rewrite Hx. by intros key ->%elem_of_singleton.
    + by rewrite Hp.
    + exists self2. split; [done|]. by rewrite Hrec, Hp, Hx.
  - intros a2 b2. unfold _search_tree. by rewrite Hl, Ht.
Qed.

(** ** A new engine after its opening call *)

Lemma filter_record_filtered self a b :
  (∀ key, key ∈ _records self → four key) → four (_previous self) →
  _filter_record self a b = Ok (filtered self a b).
Proof.
  intros Hr Hp.
  destruct (filter_record_four self a b Hr Hp) as (self' & E & Hrec).
  destruct (filter_record_frame _ _ _ _ E) as (_ & H1 & H2 & H3 & H4 & H5).
  rewrite E. f_equal. destruct self'. cbn in *. unfold filtered.
  by rewrite Hrec, H1, H2, H3, H4, H5.
Qed.

Lemma reachable_opened : reachable opened.
Proof. apply (reach_guess GuessNumberAI.new None), reach_new. Qed.

Lemma opened_previous : _previous opened = "0123".
Proof. reflexivity. Qed.

Lemma opened_log : _log opened = [].
Proof. reflexivity. Qed.

Lemma opened_records : _records opened = list_to_set valid_numbers.
Proof. reflexivity. Qed.

Lemma opened_tree : _tree opened = GuessNumberTree.new.
Proof. reflexivity. Qed.

Lemma opened_records_four key : key ∈ _records opened → four key.
Proof. apply ok_records_four, reachable_ok, reachable_opened. Qed.

Lemma opened_filter a b : _filter_record opened a b = Ok (filtered opened a b).
Proof. apply filter_record_filtered; [apply opened_records_four|done]. Qed.

Lemma opened_filtered_elem key a b :
  key ∈ _records (filtered opened a b) ↔
  key ∈ valid_numbers ∧ count_ab key "0123" = Ok (a, b).
Proof.
  unfold filtered. cbn [_records]. rewrite opened_previous, opened_records.
  rewrite elem_of_filter, elem_of_list_to_set. unfold consistent. tauto.
Qed.



Lemma opened_4_0 : _records (filtered opened 4 0) = {[ "0123" ]}.
Proof.
  apply set_eq. intros key. rewrite opened_filtered_elem, elem_of_singleton.
  split.
  - intros [Hk Hc]. apply (count_ab_all_equal key "0123" 0); [|done..].
    by apply valid_numbers_four.
  - intros ->. split; [|reflexivity].
    apply (valid_numbers_elem 123); reflexivity.
Qed.

Lemma C10_single_record_shortcut_witness :
  guess opened (Some "4A0B") = (filtered opened 4 0, Ok "0123")
  ∧ (guess_traced opened (Some "4A0B")).2 = Single
  ∧ _log (filtered opened 4 0) = _log opened
  ∧ _previous (filtered opened 4 0) = _previous opened
  ∧ _tree (filtered opened 4 0) = _tree opened
  ∧ (∀ key a2 b2, _check_result (filtered opened 4 0) key a2 b2
                  = _check_result opened key a2 b2)
  ∧ (∀ a2 b2, four "0123" → four (_previous opened) →
       ∃ self2, _filter_record (filtered opened 4 0) a2 b2 = Ok self2
                ∧ _records self2
                  = filter (consistent (_previous opened) a2 b2) {[ "0123" ]})
  ∧ (∀ a2 b2, _search_tree (filtered opened 4 0) a2 b2 = _search_tree opened a2 b2).
Proof.
  apply (C10_single_record_shortcut opened (filtered opened 4 0) "4A0B" 4 0 "0123").
  - reflexivity.
  - apply opened_filter.
  - apply opened_4_0.
Defined.

(** ** The choice on a cache miss *)




(** ** An empty Record Set *)

Lemma first_least_zero sc x l g :
  (∀ k, sc k = 0) → first_least sc (x :: l) g → g = x.
Proof.
  intros Hsc (before & after & E & Hb & _).
  destruct before as [|y before]; [by injection E as ->|].
  specialize (Hb y ltac:(left)). rewrite !Hsc in Hb. lia.
Qed.

Lemma lookup_spec_snoc tree log key m :
  node_at (root tree) (map slot log) = Some m →
  lookup_spec tree (log ++ [key])
  = match next m !! slot key with
    | Some (Some child) => Some (record child)
    | _ => None
    end.
Proof.
  intros Hm. unfold lookup_spec. rewrite map_app, node_at_app, Hm. cbn.
  by destruct (next m !! slot key) as [[c|]|].
Qed.

(** What [guess] does when the feedback leaves no record. *)
Lemma guess_on_empty
    (self self1 : GuessNumberAI.t) (r : string) (a b : nat) :
  reachable self →
  parse_result r = Ok (a, b) →
  a ≤ 4 → b ≤ 4 →
  _filter_record self a b = Ok self1 →
  _records self1 = ∅ →
  ∃ self' g,
    guess self (Some r) = (self', Ok g)
    ∧ _previous self' = g
    ∧ _log self' = _log self ++ [(a, b)]
    ∧ _records self' = ∅
    ∧ lookup_spec (_tree self') (_log self') = Some g
    ∧ match lookup_spec (_tree self) (_log self ++ [(a, b)]) with
      | Some c =>
          g = c ∧ _tree self' = _tree self
          ∧ (guess_traced self (Some r)).2 = CacheHit
      | None =>
          g = "0123" ∧ (guess_traced self (Some r)).2 = Minimax
          ∧ ∀ k, k ∈ _number_list self → _calculate_score self1 k = Ok 0
      end.
Proof.
  intros Hok%reachable_ok Hparse Ha Hb Hfilter Hempty.
  pose proof (engine_ok_filter _ _ _ _ Hok Hfilter) as Hok1.
  destruct (filter_record_frame _ _ _ _ Hfilter) as (_ & Hp & Hl & _ & Hnl & Ht).
  assert (size (_records self1) ≠ 1) as Hsize by by rewrite Hempty, size_empty.
  destruct (ok_log _ Hok1) as [m Hm].
  rewrite <-Hl, <-Ht, (lookup_spec_snoc _ _ (a, b) m Hm).
  unfold slot. cbn [fst snd].
  destruct (next m !! (a * 5 + b)) as [[child|]|] eqn:Hchild.
  - exists (log_append (set_previous self1 (record child)) (a, b)), (record child).
    unfold guess.
    rewrite (guess_hit _ _ _ _ _ Hok Hparse Hfilter m child Hsize Hm Hchild).
    cbn [fst snd _previous _log _records _tree log_append set_previous].
    rewrite (lookup_spec_snoc _ _ (a, b) m Hm). unfold slot. cbn [fst snd].
    rewrite Hchild. by repeat split.
  - destruct (guess_miss _ _ _ _ _ Hok Hparse Hfilter m Hsize Hm Hchild)
      as (g & root' & self2 & Hfirst & Hupd & Hupd' & E & _ & _ & Hnew).
    assert (g = "0123") as ->.
    { destruct valid_numbers_head as [l Hhead].
      rewrite (ok_list _ Hok1), Hhead, Hempty in Hfirst.
      apply (first_least_zero _ _ _ _ (largest_bucket_empty)) in Hfirst. done. }
    apply update_tree_frame in Hupd' as (Hp2 & Hl2 & Hr2 & _ & _ & Hroot).
    rewrite Hupd in Hroot. injection Hroot as Hroot.
    exists (log_append (set_previous self2 "0123") (a, b)), "0123".
    unfold guess. rewrite E.
    cbn [fst snd _previous _log _records _tree log_append set_previous].
    rewrite Hl2, Hr2. repeat split; try done.
    + unfold lookup_spec. rewrite map_app. cbn [map]. unfold slot at 2.
      cbn [fst snd]. rewrite <-Hroot, Hnew. done.
    + intros k Hk. rewrite (ok_calculate_score _ Hok1) by by rewrite Hnl.
      by rewrite Hempty, largest_bucket_empty.
  - exfalso. apply lookup_ge_None_1 in Hchild.
    destruct (ok_tree _ Hok1 _ _ Hm) as [Hlen _]. lia.
Qed.

(** C2 (as the code has it). On a reachable engine, when the feedback
    [(a, b)] with [a, b <= 4] leaves the Record Set empty, [guess] raises
    nothing: it returns a guess [g], stores it as the previous guess and
    appends the feedback to the log.  If the decision tree has a node for
    the extended history, [g] is that node's guess and the tree is
    unchanged; otherwise every candidate scores 0, [g] is "0123", the first
    of the Candidate Space, and it is put into the tree for that history. *)
Theorem C2_empty_record_set
    (self self1 : GuessNumberAI.t) (r : string) (a b : nat) :
  reachable self →
  parse_result r = Ok (a, b) →
  a ≤ 4 → b ≤ 4 →
  _filter_record self a b = Ok self1 →
  _records self1 = ∅ →
  ∃ self' g,
    guess self (Some r) = (self', Ok g)
    ∧ _previous self' = g
    ∧ _log self' = _log self ++ [(a, b)]
    ∧ _records self' = ∅
    ∧ lookup_spec (_tree self') (_log self') = Some g
    ∧ match lookup_spec (_tree self) (_log self ++ [(a, b)]) with
      | Some c =>
          g = c ∧ _tree self' = _tree self
          ∧ (guess_traced self (Some r)).2 = CacheHit
      | None =>
          g = "0123" ∧ (guess_traced self (Some r)).2 = Minimax
          ∧ ∀ k, k ∈ _number_list self → _calculate_score self1 k = Ok 0
      end.
Proof. apply guess_on_empty. Qed.

Lemma opened_3_1 : _records (filtered opened 3 1) = ∅.
Proof.
  apply set_eq. intros key. rewrite opened_filtered_elem. split; [|set_solver].
  intros [Hk Hc]. exfalso.
  pose proof valid_numbers_no_3_1 as Hall. rewrite forallb_forall in Hall.
  apply list_elem_of_In, Hall, negb_true_iff, bool_decide_eq_false in Hk.
  by apply Hk.
Qed.

Lemma C2_empty_record_set_witness :
  ∃ self' g,
    guess opened (Some "3A1B") = (self', Ok g)
    ∧ _previous self' = g
    ∧ _log self' = _log opened ++ [(3, 1)]
    ∧ _records self' = ∅
    ∧ lookup_spec (_tree self') (_log self') = Some g
    ∧ match lookup_spec (_tree opened) (_log opened ++ [(3, 1)]) with
      | Some c =>
          g = c ∧ _tree self' = _tree opened
          ∧ (guess_traced opened (Some "3A1B")).2 = CacheHit
      | None =>
          g = "0123" ∧ (guess_traced opened (Some "3A1B")).2 = Minimax
          ∧ ∀ k, k ∈ _number_list opened →
              _calculate_score (filtered opened 3 1) k = Ok 0
      end.
Proof.
  apply (C2_empty_record_set opened (filtered opened 3 1) "3A1B" 3 1).
  - apply reachable_opened.
  - reflexivity.
  - lia.
  - lia.
  - apply opened_filter.
  - apply opened_3_1.
Defined.

(** C2, counterexample. A new engine after its opening guess "0123" is told
    "3A1B", which no member of the Candidate Space produces: filtering
    leaves no record, and the call returns "0123" again instead of
    raising. *)
Lemma C2_counterexample :
  reachable opened
  ∧ parse_result "3A1B" = Ok (3, 1)
  ∧ _filter_record opened 3 1 = Ok (filtered opened 3 1)
  ∧ _records (filtered opened 3 1) = ∅
  ∧ (guess opened (Some "3A1B")).2 = Ok "0123"
  ∧ ¬ contradiction_surfaces opened "3A1B".
Proof.
  assert ((guess opened (Some "3A1B")).2 = Ok "0123") as Hret.
  { destruct (guess_on_empty opened (filtered opened 3 1) "3A1B" 3 1)
      as (self' & g & E & _ & _ & _ & _ & Hg);
      [apply reachable_opened|reflexivity|lia|lia|apply opened_filter
      |apply opened_3_1|].
    rewrite E. cbn [snd]. f_equal.
    assert (lookup_spec (_tree opened) (_log opened ++ [(3, 1)]) = None) as Hmiss
      by reflexivity.
    rewrite Hmiss in Hg. by destruct Hg as [-> _]. }
  split; [apply reachable_opened|]. split; [reflexivity|].
  split; [apply opened_filter|]. split; [apply opened_3_1|].
  split; [exact Hret|].
  intros H.
  destruct (H 3 1 (filtered opened 3 1)) as [e He];
    [reflexivity|apply opened_filter|apply opened_3_1|].
  rewrite Hret in He. discriminate He.
Qed.

(** ** The search of the decision tree *)

Lemma search_tree_reachable self a b :
  reachable self → a ≤ 4 → b ≤ 4 →
  search_is_lookup_spec self a b
  ∧ lookup_spec (_tree self) (_log self ++ [(a, b)]) ≠ Some EmptyString.
Proof.
  intros Hok%reachable_ok Ha Hb. unfold search_is_lookup_spec.
  destruct (ok_log _ Hok) as [m Hm].
  rewrite (search_tree_node_at _ _ _ _ Hm), (lookup_spec_snoc _ _ (a, b) m Hm).
  unfold slot. cbn [fst snd].
  destruct (next m !! (a * 5 + b)) as [[child|]|] eqn:Hchild; cbn.
  - split; [done|]. intros [= Hrec].
    assert (four (record child)) as Hfour.
    { apply (ok_tree _ Hok (map slot (_log self) ++ [a * 5 + b])).
      apply node_at_snoc. eauto. }
    rewrite Hrec in Hfour. done.
  - done.
  - exfalso. apply lookup_ge_None_1 in Hchild.
    destruct (ok_tree _ Hok _ _ Hm) as [Hlen _]. lia.
Qed.

Lemma log_edges_present self :
  reachable self →
  ∀ log1 key log2, _log self = log1 ++ key :: log2 →
    ∃ m child,
      node_at (root (_tree self)) (map slot log1) = Some m
      ∧ next m !! slot key = Some (Some child).
Proof.
  intros Hok%reachable_ok log1 key log2 Hlog.
  destruct (ok_log _ Hok) as [m' Hm'].
  rewrite Hlog, map_app, node_at_app in Hm'.
  destruct (node_at (root (_tree self)) (map slot log1)) as [m|];
    [|discriminate Hm'].
  change (node_at m (slot key :: map slot log2) = Some m') in Hm'.
  apply node_at_cons_Some in Hm' as (child & Hchild & _).
  exists m, child. split; [reflexivity|exact Hchild].
Qed.

Lemma lookup_spec_absent tree history rest :
  lookup_spec tree history = None → lookup_spec tree (history ++ rest) = None.
Proof.
  unfold lookup_spec. rewrite map_app, node_at_app.
  destruct (node_at (root tree) (map slot history)); [done|]. done.
Qed.

(** C3. On a reachable engine, for a Feedback Pair [(a, b)] with
    [a, b <= 4], the search of the decision tree is the lookup of the
    specification on the History Log followed by [(a, b)]: the walk from
    the root along the child edge of every Feedback Pair in order, which
    is "not found" as soon as a child is absent, whatever entries remain.
    The search returns [''] exactly when that lookup finds nothing, and a
    record found is never [''].  Every Feedback Pair of the log has its
    child edge at the node the walk has reached, so the search moves to a
    child at every entry of the log and never goes on from a node whose
    child is absent. *)
Theorem C3_search_tree_lookup (self : GuessNumberAI.t) (a b : nat) :
  reachable self → a ≤ 4 → b ≤ 4 →
  _search_tree self a b
  = Ok (default EmptyString (lookup_spec (_tree self) (_log self ++ [(a, b)])))
  ∧ lookup_spec (_tree self) (_log self ++ [(a, b)]) ≠ Some EmptyString
  ∧ (_search_tree self a b = Ok EmptyString
     ↔ lookup_spec (_tree self) (_log self ++ [(a, b)]) = None)
  ∧ (∀ history rest,
       lookup_spec (_tree self) history = None →
       lookup_spec (_tree self) (history ++ rest) = None)
  ∧ (∀ log1 key log2, _log self = log1 ++ key :: log2 →
       ∃ m child,
         node_at (root (_tree self)) (map slot log1) = Some m
         ∧ next m !! slot key = Some (Some child)).
Proof.
  intros Hreach Ha Hb.
  destruct (search_tree_reachable self a b Hreach Ha Hb) as [Hsearch Hne].
  unfold search_is_lookup_spec in Hsearch.
  split; [exact Hsearch|]. split; [exact Hne|]. split.
  { rewrite Hsearch.
    destruct (lookup_spec (_tree self) (_log self ++ [(a, b)])) as [g|]; cbn.
    - split; [|done]. intros [= ->]. done.
    - done. }
  split; [intros history rest; apply lookup_spec_absent|].
  by apply log_edges_present.
Qed.

Lemma C3_search_tree_lookup_witness :
  _search_tree opened 0 1
  = Ok (default EmptyString (lookup_spec (_tree opened) (_log opened ++ [(0, 1)])))
  ∧ lookup_spec (_tree opened) (_log opened ++ [(0, 1)]) ≠ Some EmptyString
  ∧ (_search_tree opened 0 1 = Ok EmptyString
     ↔ lookup_spec (_tree opened) (_log opened ++ [(0, 1)]) = None)
  ∧ (∀ history rest,
       lookup_spec (_tree opened) history = None →
       lookup_spec (_tree opened) (history ++ rest) = None)
  ∧ (∀ log1 key log2, _log opened = log1 ++ key :: log2 →
       ∃ m child,
         node_at (root (_tree opened)) (map slot log1) = Some m
         ∧ next m !! slot key = Some (Some child)).
Proof.
  apply (C3_search_tree_lookup opened 0 1).
  - apply reachable_opened.
  - lia.
  - lia.
Defined.

(** * Further properties *)

(** ** The scorer is symmetric on strings without repeated characters *)

Lemma NoDup_four (c0 c1 c2 c3 : ascii) :
  NoDup [c0; c1; c2; c3] →
  c0 ≠ c1 ∧ c0 ≠ c2 ∧ c0 ≠ c3 ∧ c1 ≠ c2 ∧ c1 ≠ c3 ∧ c2 ≠ c3.
Proof.
  intros Hd.
  apply NoDup_cons in Hd as [H0 Hd]. apply NoDup_cons in Hd as [H1 Hd].
  apply NoDup_cons in Hd as [H2 _]. set_solver.
Qed.

Lemma count_ab_sym x y :
  four x → four y → NoDup (chars x) → NoDup (chars y) →
  count_ab x y = count_ab y x.
Proof.
  intros (c0 & c1 & c2 & c3 & ->)%four_inv (d0 & d1 & d2 & d3 & ->)%four_inv.
  unfold chars. cbn [list_ascii_of_string].
  intros (? & ? & ? & ? & ? & ?)%NoDup_four (? & ? & ? & ? & ? & ?)%NoDup_four.
  unfold count_ab, count_step. cbn.
  repeat match goal with
  | |- context [Ascii.eqb ?a ?b] =>
      destruct (Ascii.eqb_spec a b); [subst|]; try congruence; cbn
  end; reflexivity.
Qed.

(** ** The Candidate Space is the set of valid digit strings *)

Lemma is_digit_char c : is_digit c = true → ∃ d, d < 10 ∧ c = digit_char d.
Proof.
  unfold is_digit. intros [H1%Nat.leb_le H2%Nat.leb_le]%andb_true_iff.
  exists (nat_of_ascii c - 48). split; [lia|]. unfold digit_char.
  replace (48 + (nat_of_ascii c - 48)) with (nat_of_ascii c) by lia.
  by rewrite ascii_nat_embedding.
Qed.

Lemma all_digits_four_inv s :
  four s → all_digits s = true →
  ∃ d0 d1 d2 d3, d0 < 10 ∧ d1 < 10 ∧ d2 < 10 ∧ d3 < 10
    ∧ s = String (digit_char d0) (String (digit_char d1)
            (String (digit_char d2) (String (digit_char d3) EmptyString))).
Proof.
  intros (c0 & c1 & c2 & c3 & ->)%four_inv. unfold all_digits, chars. cbn.
  rewrite !andb_true_iff.
  intros ((d0 & ? & ->)%is_digit_char & (d1 & ? & ->)%is_digit_char
          & (d2 & ? & ->)%is_digit_char & (d3 & ? & ->)%is_digit_char & _).
  by exists d0, d1, d2, d3.
Qed.

Lemma elem_of_valid_digit_strings s :
  GuessNumberAI.is_valid_answer s = true → all_digits s = true →
  s ∈ valid_digit_strings.
Proof.
  intros Hv Hd. apply list_elem_of_filter. split; [done|].
  destruct (all_digits_four_inv s (is_valid_answer_four s Hv) Hd)
    as (d0 & d1 & d2 & d3 & ? & ? & ? & ? & ->).
  unfold digit_strings.
  apply list_elem_of_bind. exists d0. split; [|apply elem_of_seq; lia].
  apply list_elem_of_bind. exists d1. split; [|apply elem_of_seq; lia].
  apply list_elem_of_bind. exists d2. split; [|apply elem_of_seq; lia].
  apply list_elem_of_bind. exists d3. split; [|apply elem_of_seq; lia].
  left.
Qed.

Lemma valid_numbers_complete s :
  GuessNumberAI.is_valid_answer s = true → all_digits s = true →
  s ∈ valid_numbers.
Proof.
  intros Hv Hd. rewrite valid_numbers_eq. by apply elem_of_valid_digit_strings.
Qed.

(** X8. A string is in the Candidate Space of a new engine exactly when the
    validity predicate accepts it and all its characters are digits
    '0'-'9'. *)
Theorem candidate_space_characterised (s : string) :
  s ∈ _numbers GuessNumberAI.new ↔
  GuessNumberAI.is_valid_answer s = true ∧ all_digits s = true.
Proof.
  rewrite elem_of_new_numbers. split.
  - intros Hs. split; [by apply valid_numbers_valid|].
    pose proof valid_numbers_digits as Hall. rewrite forallb_forall in Hall.
    by apply Hall, list_elem_of_In.
  - intros [Hv Hd]. by apply valid_numbers_complete.
Qed.

(** ** Inserting into the decision tree and finding it again *)

Lemma update_node_extends log g a b : ∀ n n',
  update_node n log g a b = Ok n' → extends n n'.
Proof.
  induction log as [|key log IH]; intros n n'; cbn [update_node].
  - destruct (next n !! (a * 5 + b)) as [[c|]|] eqn:E; [| |done].
    + intros [= <-]. apply extends_refl.
    + intros [= <-]. by apply extends_fill.
  - destruct (next n !! (key.1 * 5 + key.2)) as [[c|]|] eqn:E; [| |done].
    + destruct (update_node c log g a b) as [c'|] eqn:Ec; [|done]. cbn.
      intros [= <-]. eapply extends_insert; [done|]. by apply IH.
    + apply IH.
Qed.

Lemma update_node_free log g a b : ∀ n m,
  node_at n (map slot log) = Some m →
  next m !! (a * 5 + b) = Some None →
  ∃ n', update_node n log g a b = Ok n'
        ∧ node_at n' (map slot log ++ [a * 5 + b]) = Some (new_TreeNode g).
Proof.
  induction log as [|key log IH]; intros n m; cbn [map node_at update_node app].
  - intros [= ->] Hs. rewrite Hs. eexists. split; [done|].
    cbn [node_at next]. rewrite list_lookup_insert_eq by by eapply lookup_lt_Some.
    done.
  - unfold slot at 1 3.
    destruct (next n !! (key.1 * 5 + key.2)) as [[c|]|] eqn:E; try done.
    intros Hm Hs. destruct (IH c m Hm Hs) as (c' & -> & Hnew).
    cbn. eexists. split; [done|].
    cbn [node_at next]. rewrite list_lookup_insert_eq by by eapply lookup_lt_Some.
    done.
Qed.

Lemma update_node_range log g a b : ∀ n m,
  node_at n (map slot log) = Some m →
  next m !! (a * 5 + b) = None →
  update_node n log g a b = Raise IndexError.
Proof.
  induction log as [|key log IH]; intros n m; cbn [map node_at update_node].
  - intros [= ->] Hs. by rewrite Hs.
  - unfold slot at 1.
    destruct (next n !! (key.1 * 5 + key.2)) as [[c|]|] eqn:E; try done.
    intros Hm Hs. by rewrite (IH c m Hm Hs).
Qed.

(** X1. When every edge of the log is in the tree and the slot [a*5+b]
    exists at the node [m] the log leads to, [_update_tree] returns; a
    search for [(a, b)] afterwards finds the guess that was first put
    there: the new guess if the slot was empty, the old one (and an
    unchanged tree) if it was taken.  Nothing but the tree changes.  If the
    slot does not exist (25 or more), [_update_tree] raises [IndexError]. *)
Theorem update_then_search
    (self : GuessNumberAI.t) (g : string) (a b : nat) (m : TreeNode) :
  node_at (root (_tree self)) (map slot (_log self)) = Some m →
  (a * 5 + b < length (next m) →
   ∃ self2,
     _update_tree self g a b = Ok self2
     ∧ _search_tree self2 a b
       = Ok (match next m !! (a * 5 + b) with
             | Some (Some child) => record child
             | _ => g
             end)
     ∧ (∀ child, next m !! (a * 5 + b) = Some (Some child) → self2 = self)
     ∧ extends (root (_tree self)) (root (_tree self2))
     ∧ _previous self2 = _previous self ∧ _log self2 = _log self
     ∧ _records self2 = _records self ∧ _numbers self2 = _numbers self
     ∧ _number_list self2 = _number_list self)
  ∧ (length (next m) ≤ a * 5 + b →
     _update_tree self g a b = Raise IndexError).
Proof.
  intros Hm. split.
  - intros [o Ho]%lookup_lt_is_Some_2. rewrite Ho. destruct o as [child|].
    + exists self. unfold _update_tree.
      rewrite (update_node_filled _ _ _ _ _ _ _ Hm Ho). cbn.
      rewrite (search_tree_node_at _ _ _ _ Hm), Ho.
      destruct self as [? ? ? ? ? [?]]. cbn. repeat split; try done.
      apply extends_refl.
    + destruct (update_node_free (_log self) g a b _ _ Hm Ho) as (n' & Hupd & Hnew).
      unfold _update_tree. rewrite Hupd. cbn. eexists. split; [done|].
      apply node_at_snoc in Hnew as (m' & Hm' & Hs').
      split.
      { rewrite (search_tree_node_at _ _ _ m') by exact Hm'. by rewrite Hs'. }
      split; [done|]. split; [|done]. cbn.
      by eapply update_node_extends.
  - intros Hs%lookup_ge_None_2. unfold _update_tree.
    by rewrite (update_node_range _ _ _ _ _ _ Hm Hs).
Qed.

Lemma update_then_search_witness :
  (0 * 5 + 2 < length (next (root (_tree opened))) →
   ∃ self2,
     _update_tree opened "4567" 0 2 = Ok self2
     ∧ _search_tree self2 0 2
       = Ok (match next (root (_tree opened)) !! (0 * 5 + 2) with
             | Some (Some child) => record child
             | _ => "4567"
             end)
     ∧ (∀ child, next (root (_tree opened)) !! (0 * 5 + 2) = Some (Some child) →
          self2 = opened)
     ∧ extends (root (_tree opened)) (root (_tree self2))
     ∧ _previous self2 = _previous opened ∧ _log self2 = _log opened
     ∧ _records self2 = _records opened ∧ _numbers self2 = _numbers opened
     ∧ _number_list self2 = _number_list opened)
  ∧ (length (next (root (_tree opened))) ≤ 0 * 5 + 2 →
     _update_tree opened "4567" 0 2 = Raise IndexError).
Proof.
  apply (update_then_search opened "4567" 0 2 (root (_tree opened))).
  reflexivity.
Defined.

(** ** What [guess] never undoes *)

Lemma extends_lookup_spec t1 t2 history c :
  extends (root t1) (root t2) →
  lookup_spec t1 history = Some c → lookup_spec t2 history = Some c.
Proof.
  unfold lookup_spec. intros Hext.
  destruct (node_at (root t1) (map slot history)) as [m|] eqn:Hm; [|done].
  intros [= <-]. destruct (Hext _ _ Hm) as (m' & -> & Hrec). cbn. by f_equal.
Qed.

Lemma guess_extends self result :
  engine_ok self →
  extends (root (_tree self)) (root (_tree (guess self result).1)).
Proof.
  intros Hok. unfold guess. destruct result as [r|].
  - apply (guess_case_extends self r). by apply guess_cases.
  - rewrite guess_opening. apply extends_refl.
Qed.

(** X2. On a reachable engine a cached guess is permanent: whatever the
    tree returns for a history, it returns for that history after any call
    of [guess] (with any argument, returning or raising), after
    [initialize], and after a whole game session. *)
Theorem cache_permanent
    (self : GuessNumberAI.t) (history : list (nat * nat)) (c : string) :
  reachable self →
  lookup_spec (_tree self) history = Some c →
  (∀ result, lookup_spec (_tree (guess self result).1) history = Some c)
  ∧ lookup_spec (_tree (initialize self)) history = Some c
  ∧ (∀ feedback, lookup_spec (_tree (session self feedback).1) history = Some c).
Proof.
  intros Hok%reachable_ok Hc. split; [|split; [exact Hc|]].
  - intros result. eapply extends_lookup_spec; [|exact Hc].
    by apply guess_extends.
  - intros feedback. eapply extends_lookup_spec; [|exact Hc].
    unfold session. rewrite guess_opening.
    destruct (feed _ feedback) as [s outs] eqn:E. cbn [fst].
    replace s with (feed (set_previous (initialize (initialize self)) "0123") feedback).1
      by by rewrite E.
    apply (feed_extends feedback (set_previous (initialize (initialize self)) "0123")).
    apply engine_ok_set_previous; [|done]. by do 2 apply engine_ok_initialize.
Qed.

Lemma cache_permanent_witness :
  (∀ result, lookup_spec (_tree (guess opened result).1) [] = Some "0123")
  ∧ lookup_spec (_tree (initialize opened)) [] = Some "0123"
  ∧ (∀ feedback, lookup_spec (_tree (session opened feedback).1) [] = Some "0123").
Proof.
  apply (cache_permanent opened [] "0123"); [apply reachable_opened|reflexivity].
Defined.

(** X3. For every engine object and every argument, [guess] leaves the
    Candidate Space and its sorted list untouched; with a feedback string
    the Record Set it leaves is a subset of the one it found (also when it
    raises), and without one the Record Set is the whole Candidate Space
    again. *)
Theorem guess_frame (self : GuessNumberAI.t) (result : option string) :
  _numbers (guess self result).1 = _numbers self
  ∧ _number_list (guess self result).1 = _number_list self
  ∧ match result with
    | Some _ => _records (guess self result).1 ⊆ _records self
    | None => _records (guess self result).1 = _numbers self
              ∧ _log (guess self result).1 = []
              ∧ (guess self result).2 = Ok "0123"
    end.
Proof.
  unfold guess. destruct result as [r|]; [|by rewrite guess_opening].
  unfold guess_traced.
  destruct (parse_result r) as [[a b]|e]; [|done].
  destruct (_filter_record self a b) as [self1|e] eqn:Hfilter; [|done].
  destruct (filter_record_frame _ _ _ _ Hfilter) as (Hr & _ & _ & Hn & Hnl & _).
  destruct (size (_records self1) =? 1).
  { by destruct (next_iter (_records self1)). }
  destruct (_search_tree self1 a b) as [sr|e]; [|done].
  destruct (negb (String.eqb sr EmptyString)); [done|].
  destruct (select self1) as [cand|e]; [|done].
  destruct (_update_tree self1 cand.1 a b) as [self2|e] eqn:Hupd; [|done].
  apply update_tree_frame in Hupd as (_ & _ & Hr2 & Hn2 & Hnl2 & _).
  cbn. by rewrite Hr2, Hn2, Hnl2.
Qed.

(** ** Feedback before the opening call *)

Lemma count_ab_previous_empty key : four key → count_ab key EmptyString = Raise IndexError.
Proof. by intros (c0 & c1 & c2 & c3 & ->)%four_inv. Qed.

Lemma filter_record_no_previous self a b :
  _previous self = EmptyString → _records self ≠ ∅ →
  (∀ key, key ∈ _records self → four key) →
  _filter_record self a b = Raise IndexError.
Proof.
  intros Hp Hne Hfour. unfold _filter_record.
  destruct (elements (_records self)) as [|key l] eqn:E.
  { by apply elements_empty_inv, leibniz_equiv in E. }
  assert (_check_result self key a b = Raise IndexError) as Hcheck.
  { unfold _check_result. rewrite Hp, count_ab_previous_empty; [done|].
    apply Hfour, elem_of_elements. rewrite E. left. }
  cbn [for_each]. cbv beta. by rewrite Hcheck.
Qed.

(** X4. A feedback string given to a reachable engine right after
    [initialize] (so also to a new engine), before any opening call
    [guess(None)], makes [guess] raise: [IndexError] from indexing the
    empty previous guess if the string parses, the parse error otherwise;
    the engine is left as it was. *)
Theorem guess_before_opening (self : GuessNumberAI.t) (r : string) :
  reachable self →
  guess (initialize self) (Some r)
  = (initialize self,
     Raise match parse_result r with Ok _ => IndexError | Raise e => e end).
Proof.
  intros Hok%reachable_ok. unfold guess.
  destruct (parse_result r) as [[a b]|e] eqn:Hparse.
  2:{ by rewrite (guess_parse_raises _ _ _ Hparse). }
  rewrite (guess_filter_raises _ _ a b IndexError Hparse); [done|].
  pose proof (engine_ok_initialize _ Hok) as Hok'.
  apply filter_record_no_previous; [done| |apply (ok_records_four _ Hok')].
  cbn [initialize _records]. rewrite (ok_numbers _ Hok).
  destruct valid_numbers_head as [l ->]. cbn. set_solver.
Qed.

Lemma guess_before_opening_witness :
  guess (initialize GuessNumberAI.new) (Some "1A1B")
  = (initialize GuessNumberAI.new,
     Raise match parse_result "1A1B" with Ok _ => IndexError | Raise e => e end).
Proof. apply (guess_before_opening GuessNumberAI.new "1A1B"), reach_new. Defined.

(** ** What [guess] returns and raises *)

Lemma update_node_records log g a b : ∀ n n',
  update_node n log g a b = Ok n' →
  ∀ q m', node_at n' q = Some m' →
    record m' = g ∨ ∃ m0, node_at n q = Some m0 ∧ record m0 = record m'.
Proof.
  induction log as [|key log IH]; intros n n'; cbn [update_node].
  - destruct (next n !! (a * 5 + b)) as [[c|]|] eqn:E; [| |done].
    + intros [= <-] q m' Hq. right. eauto.
    + intros [= <-] [|j q] m'.
      * intros [= <-]. right. exists n. done.
      * intros (c & Hj & Hq)%node_at_cons_Some. cbn [next] in Hj.
        destruct (decide (a * 5 + b = j)) as [<-|Hne].
        -- apply list_lookup_insert_Some in Hj as [(_ & [= <-] & _)|[? _]]; [|done].
           apply new_TreeNode_leaf in Hq as [_ ->]. by left.
        -- rewrite list_lookup_insert_ne in Hj by done. right. exists m'.
           split; [|done]. apply node_at_cons_Some. eauto.
  - destruct (next n !! (key.1 * 5 + key.2)) as [[c|]|] eqn:E; [| |done].
    + destruct (update_node c log g a b) as [c'|] eqn:Ec; [|done]. cbn.
      intros [= <-] [|j q] m'.
      * intros [= <-]. right. exists n. done.
      * intros (c0 & Hj & Hq)%node_at_cons_Some. cbn [next] in Hj.
        destruct (decide (key.1 * 5 + key.2 = j)) as [<-|Hne].
        -- apply list_lookup_insert_Some in Hj as [(_ & [= <-] & _)|[? _]]; [|done].
           destruct (IH _ _ Ec _ _ Hq) as [?|(m0 & Hm0 & Hrec)]; [by left|].
           right. exists m0. split; [|done]. apply node_at_cons_Some. eauto.
        -- rewrite list_lookup_insert_ne in Hj by done. right. exists m'.
           split; [|done]. apply node_at_cons_Some. eauto.
    + apply IH.
Qed.

Lemma tree_valid_guess_case self r out :
  engine_ok self → tree_valid (root (_tree self)) →
  guess_case self r out → tree_valid (root (_tree out.1.1)).
Proof.
  intros Hok Hvalid Hcase.
  destruct Hcase as [e Hparse|a b e Hparse Hfilter|a b self1 x Hparse Hfilter Hx
    |a b self1 Hparse Hfilter Hsize Hslot
    |a b self1 m child Hparse Hfilter Hsize Hm Hchild
    |a b self1 m g root' self2 Hparse Hfilter Hsize Hm Hchild Hfirst Hupd Hroot
       Hext Htree Hnew]; cbn [fst]; try exact Hvalid;
    pose proof (engine_ok_filter _ _ _ _ Hok Hfilter) as Hok1;
    apply filter_record_frame in Hfilter as (_ & _ & _ & _ & _ & Ht).
  - by rewrite Ht.
  - by rewrite Ht.
  - cbn. by rewrite Ht.
  - cbn. apply update_tree_frame in Hupd as (_ & _ & _ & _ & _ & Hupd).
    intros q m' Hq.
    destruct (update_node_records _ _ _ _ _ _ Hupd q m' Hq) as [->|(m0 & Hm0 & <-)].
    + rewrite <-(ok_list _ Hok1). by apply first_least_spec in Hfirst as [? _].
    + apply (Hvalid q). by rewrite <-Ht.
Qed.

Lemma reachable_tree_valid self : reachable self → tree_valid (root (_tree self)).
Proof.
  induction 1 as [|self _ IH|self result Hreach IH].
  - intros q m [-> ->]%(new_TreeNode_leaf "0123"). cbn.
    destruct valid_numbers_head as [l ->]. left.
  - exact IH.
  - pose proof (reachable_ok _ Hreach) as Hok. unfold guess.
    destruct result as [r|].
    + eapply tree_valid_guess_case; [done..|]. by apply guess_cases.
    + rewrite guess_opening. exact IH.
Qed.

Lemma parse_result_raises r e :
  parse_result r = Raise e → e = IndexError ∨ e = ValueError.
Proof.
  unfold parse_result, getitem, int_of_char.
  destruct (String.get 0 r) as [c0|]; cbn; [|intros [= <-]; by left].
  destruct (is_digit c0); cbn; [|intros [= <-]; by right].
  destruct (String.get 2 r) as [c2|]; cbn; [|intros [= <-]; by left].
  destruct (is_digit c2); cbn; [done|intros [= <-]; by right].
Qed.

Lemma filter_record_raises self a b e :
  engine_ok self → _filter_record self a b = Raise e → e = IndexError.
Proof.
  intros Hok Hraise. destruct (ok_previous _ Hok) as [Hp|Hp].
  - destruct (decide (_records self = ∅)) as [Hempty|Hne].
    + unfold _filter_record in Hraise. rewrite Hempty, elements_empty in Hraise.
      done.
    + rewrite (filter_record_no_previous self a b Hp Hne) in Hraise
        by apply (ok_records_four _ Hok).
      by injection Hraise as <-.
  - destruct (filter_record_four self a b (ok_records_four _ Hok) Hp) as (s & E & _).
    rewrite E in Hraise. done.
Qed.

(** X5. Whatever a reachable engine is asked, [guess] either returns a
    member of the Candidate Space (so a string the validity predicate
    accepts, made of digits '0'-'9' only; never the empty string), or
    raises [IndexError] or [ValueError]; it never raises [KeyError] or
    [StopIteration]. *)
Theorem guess_returns_candidate (self : GuessNumberAI.t) (result : option string) :
  reachable self →
  match (guess self result).2 with
  | Ok g =>
      g ∈ _numbers self
      ∧ GuessNumberAI.is_valid_answer g = true
      ∧ all_digits g = true
  | Raise e => e = IndexError ∨ e = ValueError
  end.
Proof.
  intros Hreach. pose proof (reachable_ok _ Hreach) as Hok.
  pose proof (reachable_tree_valid _ Hreach) as Hvalid.
  assert (∀ g, g ∈ valid_numbers →
    g ∈ _numbers self ∧ GuessNumberAI.is_valid_answer g = true
    ∧ all_digits g = true) as Hmember.
  { intros g Hg. rewrite (ok_numbers _ Hok), elem_of_list_to_set.
    split; [done|]. split; [by apply valid_numbers_valid|].
    pose proof valid_numbers_digits as Hall. rewrite forallb_forall in Hall.
    by apply Hall, list_elem_of_In. }
  unfold guess. destruct result as [r|].
  2:{ rewrite guess_opening. cbn [fst snd]. apply Hmember.
      destruct valid_numbers_head as [l ->]. left. }
  destruct (guess_cases self r Hok) as [e Hparse|a b e Hparse Hfilter
    |a b self1 x Hparse Hfilter Hx
    |a b self1 Hparse Hfilter Hsize Hslot
    |a b self1 m child Hparse Hfilter Hsize Hm Hchild
    |a b self1 m g root' self2 Hparse Hfilter Hsize Hm Hchild Hfirst Hupd Hroot
       Hext Htree Hnew]; cbn [fst snd].
  - by eapply parse_result_raises.
  - left. by eapply filter_record_raises.
  - apply Hmember.
    pose proof (engine_ok_filter _ _ _ _ Hok Hfilter) as Hok1.
    assert (x ∈ _numbers self1) as Hin.
    { apply (ok_records _ Hok1). rewrite Hx. by apply elem_of_singleton. }
    rewrite (ok_numbers _ Hok1) in Hin. apply elem_of_list_to_set in Hin.
    exact Hin.
  - by left.
  - apply Hmember.
    apply filter_record_frame in Hfilter as (_ & _ & Hl & _ & _ & Ht).
    apply (Hvalid (map slot (_log self1) ++ [a * 5 + b])).
    rewrite <-Ht. apply node_at_snoc. eauto.
  - apply Hmember.
    pose proof (engine_ok_filter _ _ _ _ Hok Hfilter) as Hok1.
    rewrite <-(ok_list _ Hok1). by apply first_least_spec in Hfirst as [? _].
Qed.

Lemma guess_returns_candidate_witness :
  match (guess opened (Some "1A1B")).2 with
  | Ok g =>
      g ∈ _numbers opened
      ∧ GuessNumberAI.is_valid_answer g = true
      ∧ all_digits g = true
  | Raise e => e = IndexError ∨ e = ValueError
  end.
Proof. apply (guess_returns_candidate opened (Some "1A1B")), reachable_opened. Defined.

(** ** A game against the checker *)

Lemma valid_numbers_NoDup_chars s : s ∈ valid_numbers → NoDup (chars s).
Proof. intros Hs%valid_numbers_valid. by apply is_valid_answer_spec in Hs as (_ & _ & ?). Qed.

Lemma answer_ok secret g :
  four g → four secret →
  ∃ a b, count_ab g secret = Ok (a, b)
    ∧ a + b ≤ 4
    ∧ GuessNumberChecker.answer {| GuessNumberChecker._answer_number := secret |} g
      = Ok (str_of_nat a +:+ "A" +:+ str_of_nat b +:+ "B")
    ∧ parse_result (str_of_nat a +:+ "A" +:+ str_of_nat b +:+ "B") = Ok (a, b).
Proof.
  intros Hg Hs. destruct (count_ab_four g secret Hg Hs) as [[a b] E].
  pose proof (count_ab_bound _ _ _ _ E) as Hab.
  exists a, b. split; [done|]. split; [done|].
  unfold GuessNumberChecker.answer. cbn [GuessNumberChecker._answer_number].
  rewrite E. split; [reflexivity|]. apply parse_format; lia.
Qed.

(** The checker says "4A0B" exactly when the guess is the secret. *)
Lemma answer_4A0B secret g r :
  four g → four secret →
  GuessNumberChecker.answer {| GuessNumberChecker._answer_number := secret |} g = Ok r →
  r = "4A0B" ↔ g = secret.
Proof.
  intros Hg Hs Hr.
  destruct (answer_ok secret g Hg Hs) as (a & b & E & Hab & Hans & Hparse).
  rewrite Hans in Hr. injection Hr as <-. split.
  - intros H40. rewrite H40 in Hparse. injection Hparse as <- <-.
    by apply (count_ab_all_equal g secret 0).
  - intros ->. rewrite count_ab_self in E by done. by injection E as <- <-.
Qed.

(** One round: a call of [guess] and the checker's answer to it. *)
Lemma round_ok secret ai result :
  secret ∈ valid_numbers → in_game secret ai result →
  ∃ ai' g r,
    guess ai result = (ai', Ok g)
    ∧ GuessNumberChecker.answer {| GuessNumberChecker._answer_number := secret |} g = Ok r
    ∧ (r = "4A0B" ↔ g = secret)
    ∧ secret ∈ _records ai'
    ∧ reachable ai'
    ∧ (r ≠ "4A0B" → in_game secret ai' (Some r)).
Proof.
  intros Hsecret [Hreach Hgame].
  pose proof (valid_numbers_four _ Hsecret) as Hs4.
  pose proof (reachable_ok _ Hreach) as Hok.
  assert (∀ g, four g → ∃ r,
    GuessNumberChecker.answer {| GuessNumberChecker._answer_number := secret |} g = Ok r
    ∧ (r = "4A0B" ↔ g = secret)) as Hanswer.
  { intros g Hg. destruct (answer_ok secret g Hg Hs4) as (a & b & _ & _ & Hans & _).
    eexists. split; [exact Hans|]. by apply answer_4A0B. }
  assert (reachable (guess ai result).1) as Hreach' by by constructor.
  destruct result as [r|].
  2:{ unfold guess in *. rewrite guess_opening in *. cbn [fst] in *.
      destruct (Hanswer "0123") as (r & Hr & Hiff); [done|].
      exists (set_previous (initialize ai) "0123"), "0123", r.
      split; [done|]. split; [done|]. split; [done|].
      assert (secret ∈ _records (set_previous (initialize ai) "0123")) as Hin.
      { cbn. rewrite (ok_numbers _ Hok). by apply elem_of_list_to_set. }
      split; [done|]. split; [done|]. intros Hne. split; [done|].
      split; [done|]. split; [|done]. cbn.
      destruct valid_numbers_head as [l ->]. left. }
  destruct Hgame as (Hin & Hprev & Hans & Hne).
  pose proof (valid_numbers_four _ Hprev) as Hp4.
  destruct (answer_ok secret (_previous ai) Hp4 Hs4) as (a & b & Hcount & Hab & Hans' & Hparse).
  rewrite Hans in Hans'. injection Hans' as ->.
  destruct (filter_record_four ai a b (ok_records_four _ Hok) Hp4) as (ai1 & Hfilter & Hrec).
  assert (secret ∈ _records ai1) as Hin1.
  { rewrite Hrec. apply elem_of_filter. split; [|done]. unfold consistent.
    rewrite count_ab_sym; try done; by apply valid_numbers_NoDup_chars. }
  pose proof (reachable_tree_valid _ Hreach) as Hvalid.
  pose proof (engine_ok_filter _ _ _ _ Hok Hfilter) as Hok1.
  assert (∀ ai' g,
    guess ai (Some (str_of_nat a +:+ "A" +:+ str_of_nat b +:+ "B")) = (ai', Ok g) →
    g ∈ valid_numbers → secret ∈ _records ai' →
    (g ≠ secret → _previous ai' = g) →
    ∃ ai' g r,
      guess ai (Some (str_of_nat a +:+ "A" +:+ str_of_nat b +:+ "B")) = (ai', Ok g)
      ∧ GuessNumberChecker.answer {| GuessNumberChecker._answer_number := secret |} g = Ok r
      ∧ (r = "4A0B" ↔ g = secret)
      ∧ secret ∈ _records ai'
      ∧ reachable ai'
      ∧ (r ≠ "4A0B" → in_game secret ai' (Some r))) as Hfinish.
  { intros ai' g E Hg Hin' Hp'.
    destruct (Hanswer g (valid_numbers_four _ Hg)) as (r & Hr & Hiff).
    exists ai', g, r. rewrite E in Hreach'. cbn [fst] in Hreach'.
    split; [done|]. split; [done|]. split; [done|]. split; [done|].
    split; [done|]. intros Hr'. split; [done|]. split; [done|].
    assert (g ≠ secret) as Hgs by (intros ?; by apply Hr', Hiff).
    rewrite (Hp' Hgs). by repeat split. }
  unfold guess in *.
  destruct (guess_cases ai (str_of_nat a +:+ "A" +:+ str_of_nat b +:+ "B") Hok)
    as [e Hparse'|a' b' e Hparse' Hfilter'
    |a' b' self1 x Hparse' Hfilter' Hx
    |a' b' self1 Hparse' Hfilter' Hsize Hslot
    |a' b' self1 m child Hparse' Hfilter' Hsize Hm Hchild
    |a' b' self1 m g root' self2 Hparse' Hfilter' Hsize Hm Hchild Hfirst Hupd Hroot
       Hext Htree Hnew]; cbn [fst snd] in *;
    rewrite Hparse in Hparse'; try done; injection Hparse' as <- <-;
    rewrite Hfilter in Hfilter'; try done; injection Hfilter' as <-.
  - rewrite Hx in Hin1. apply elem_of_singleton in Hin1 as <-.
    apply (Hfinish ai1 secret); [done|done| |done].
    rewrite Hx. by apply elem_of_singleton.
  - lia.
  - apply (Hfinish (log_append (set_previous ai1 (record child)) (a, b)) (record child));
      [done| |done|done].
    apply filter_record_frame in Hfilter as (_ & _ & _ & _ & _ & Ht).
    apply (Hvalid (map slot (_log ai1) ++ [a * 5 + b])).
    rewrite <-Ht. apply node_at_snoc. eauto.
  - apply update_tree_frame in Hupd as (_ & _ & Hr2 & _ & _ & _).
    apply (Hfinish (log_append (set_previous self2 g) (a, b)) g); [done| | |done].
    + rewrite <-(ok_list _ Hok1). by apply first_least_spec in Hfirst as [? _].
    + cbn. by rewrite Hr2.
Qed.

Import GuessNumberAISelfTest.

Lemma _play_loop_done fuel answer_number checker ai tried logs :
  _play_loop fuel answer_number checker ai (Some "4A0B") tried logs
  = Some (ai, Ok (tried, logs, [])).
Proof. by destruct fuel. Qed.

Lemma in_game_not_done secret ai result :
  in_game secret ai result → bool_decide (result = Some "4A0B") = false.
Proof.
  intros [_ H]. apply bool_decide_eq_false. destruct result as [r|]; [|done].
  destruct H as (_ & _ & _ & Hne). by intros [= ->].
Qed.

Lemma _play_loop_ok secret :
  secret ∈ valid_numbers →
  ∀ fuel ai result tried logs,
    in_game secret ai result → tried < 10 → 10 ≤ tried + fuel →
    ∃ ai' tried' logs' printed,
      _play_loop fuel secret {| GuessNumberChecker._answer_number := secret |}
        ai result tried logs
      = Some (ai', Ok (tried', logs', printed))
      ∧ tried < tried' ≤ 10
      ∧ length logs' = length logs + (tried' - tried)
      ∧ secret ∈ _records ai'
      ∧ reachable ai'
      ∧ (tried' < 10 →
           last logs' = Some (format_round tried' secret "4A0B") ∧ printed = []).
Proof.
  intros Hsecret.
  induction fuel as [|fuel IH]; intros ai result tried logs Hgame Htried Hfuel;
    [lia|].
  cbn [_play_loop]. rewrite (in_game_not_done _ _ _ Hgame).
  destruct (round_ok secret ai result Hsecret Hgame)
    as (ai' & g & r & -> & -> & Hiff & Hin & Hreach & Hnext).
  destruct (Nat.leb_spec 10 (tried + 1)) as [Hcap|Hcap].
  - eexists _, _, _, _. split; [done|]. rewrite length_app. cbn.
    repeat split; try done; lia.
  - destruct (decide (r = "4A0B")) as [->|Hr].
    + rewrite _play_loop_done. eexists _, _, _, _. split; [done|].
      rewrite length_app. cbn. repeat split; try done; try lia.
      rewrite last_snoc. f_equal. f_equal. by apply Hiff.
    + destruct (IH ai' (Some r) (tried + 1) (logs ++ [format_round (tried + 1) g r]))
        as (ai'' & tried' & logs' & printed & -> & Ht & Hlen & Hin' & Hreach' & Hlast);
        [by apply Hnext|lia|lia|].
      eexists _, _, _, _. split; [done|]. rewrite length_app in Hlen. cbn in Hlen.
      repeat split; try done; try lia; by apply Hlast.
Qed.

(** X12. The self-test game [_play] against a secret of the Candidate Space,
    on a reachable engine, with fuel for at least 10 rounds: the loop ends
    without raising; the number of tries returned is between 1 and 10, and
    is the number of rounds logged; the secret is still in the Record Set
    afterwards; if fewer than 10 tries were needed, the last round's guess
    is the secret (answered "4A0B"); and nothing is printed when at most 7
    tries were needed. *)
Theorem play_capped_sound (fuel : nat) (secret : string) (ai : GuessNumberAI.t) :
  reachable ai →
  GuessNumberAI.is_valid_answer secret = true →
  all_digits secret = true →
  10 ≤ fuel →
  ∃ ai' tried logs printed,
    _play_loop fuel secret {| GuessNumberChecker._answer_number := secret |}
      (initialize ai) None 0 []
    = Some (ai', Ok (tried, logs, printed))
    ∧ _play fuel secret ai
      = Some (ai', Ok tried, printed ++ (if 7 <? tried then logs else []))
    ∧ 1 ≤ tried ≤ 10
    ∧ length logs = tried
    ∧ secret ∈ _records ai'
    ∧ reachable ai'
    ∧ (tried < 10 → last logs = Some (format_round tried secret "4A0B"))
    ∧ (tried ≤ 7 → printed ++ (if 7 <? tried then logs else []) = []).
Proof.
  intros Hreach Hvalid Hdigits Hfuel.
  pose proof (valid_numbers_complete secret Hvalid Hdigits) as Hsecret.
  destruct (_play_loop_ok secret Hsecret fuel (initialize ai) None 0 [])
    as (ai' & tried & logs & printed & E & Ht & Hlen & Hin & Hreach' & Hlast);
    [split; [by constructor|done]|lia|lia|].
  exists ai', tried, logs, printed. split; [done|].
  unfold _play. rewrite E. split; [done|]. split; [lia|].
  split; [cbn in Hlen; lia|]. split; [done|]. split; [done|]. split.
  - intros H10. by apply Hlast.
  - intros H7. destruct (Hlast ltac:(lia)) as [_ ->].
    destruct (Nat.ltb_spec 7 tried); [lia|done].
Qed.

Lemma play_capped_sound_witness :
  ∃ ai' tried logs printed,
    _play_loop 10 "0123" {| GuessNumberChecker._answer_number := "0123" |}
      (initialize GuessNumberAI.new) None 0 []
    = Some (ai', Ok (tried, logs, printed))
    ∧ _play 10 "0123" GuessNumberAI.new
      = Some (ai', Ok tried, printed ++ (if 7 <? tried then logs else []))
    ∧ 1 ≤ tried ≤ 10
    ∧ length logs = tried
    ∧ "0123" ∈ _records ai'
    ∧ reachable ai'
    ∧ (tried < 10 → last logs = Some (format_round tried "0123" "4A0B"))
    ∧ (tried ≤ 7 → printed ++ (if 7 <? tried then logs else []) = []).
Proof.
  apply (play_capped_sound 10 "0123" GuessNumberAI.new);
    [apply reach_new|reflexivity|reflexivity|lia].
Defined.

(** ** The game [play] without a cap *)

Lemma play_loop_done fuel checker ai tried printed :
  play_loop fuel checker ai (Some "4A0B") tried printed
  = Some (ai, Ok tried, printed).
Proof. by destruct fuel. Qed.

Lemma play_loop_ok secret :
  secret ∈ valid_numbers →
  ∀ fuel ai result tried printed,
    in_game secret ai result →
    match play_loop fuel {| GuessNumberChecker._answer_number := secret |}
            ai result tried printed with
    | None => True
    | Some (ai', out, printed') =>
        ∃ tried',
          out = Ok tried'
          ∧ tried < tried' ≤ tried + fuel
          ∧ length printed' = length printed + (tried' - tried)
          ∧ last printed' = Some (format_round tried' secret "4A0B")
          ∧ secret ∈ _records ai'
          ∧ reachable ai'
    end.
Proof.
  intros Hsecret.
  induction fuel as [|fuel IH]; intros ai result tried printed Hgame;
    cbn [play_loop]; rewrite (in_game_not_done _ _ _ Hgame); [done|].
  destruct (round_ok secret ai result Hsecret Hgame)
    as (ai' & g & r & -> & -> & Hiff & Hin & Hreach & Hnext).
  destruct (decide (r = "4A0B")) as [->|Hr].
  - rewrite play_loop_done. exists (tried + 1). rewrite length_app, last_snoc. cbn.
    repeat split; try done; try lia. f_equal. f_equal. by apply Hiff.
  - specialize (IH ai' (Some r) (tried + 1)
                  (printed ++ [format_round (tried + 1) g r]) (Hnext Hr)).
    destruct (play_loop fuel _ ai' (Some r) (tried + 1) _) as [[[ai'' out] printed']|];
      [|done].
    destruct IH as (tried' & -> & Ht & Hlen & Hlast & Hin' & Hreach').
    exists tried'. rewrite length_app in Hlen. cbn in Hlen.
    repeat split; try done; lia.
Qed.

(** X13. The game [play] against a secret of the Candidate Space on a
    reachable engine never raises.  Whenever its loop ends within the fuel,
    it returns the number of rounds it printed, at least 1, the last line
    printed is the round in which the secret itself was guessed and
    answered "4A0B", and the secret is still in the Record Set.  With the
    opening guess as the secret it ends in one round. *)
Theorem play_sound (fuel : nat) (secret : string) (ai : GuessNumberAI.t) :
  reachable ai →
  GuessNumberAI.is_valid_answer secret = true →
  all_digits secret = true →
  match play fuel secret ai with
  | None => True
  | Some (ai', out, printed) =>
      ∃ tried,
        out = Ok tried
        ∧ 1 ≤ tried ≤ fuel
        ∧ length printed = tried
        ∧ last printed = Some (format_round tried secret "4A0B")
        ∧ secret ∈ _records ai'
        ∧ reachable ai'
  end
  ∧ (secret = "0123" → 1 ≤ fuel →
     ∃ ai', play fuel secret ai = Some (ai', Ok 1, [format_round 1 "0123" "4A0B"])).
Proof.
  intros Hreach Hvalid Hdigits.
  pose proof (valid_numbers_complete secret Hvalid Hdigits) as Hsecret.
  split.
  - pose proof (play_loop_ok secret Hsecret fuel (initialize ai) None 0 []) as H.
    unfold play.
    destruct (play_loop fuel _ (initialize ai) None 0 []) as [[[ai' out] printed]|];
      [|done].
    destruct H as (tried & -> & Ht & Hlen & Hlast & Hin & Hreach').
    { split; [by constructor|done]. }
    exists tried. cbn in Hlen. repeat split; try done; lia.
  - intros -> Hfuel. destruct fuel as [|fuel]; [lia|].
    unfold play. cbn [play_loop]. cbn [bool_decide decide_rel]. 
    unfold guess. rewrite guess_opening. cbn [fst snd].
    eexists. change (GuessNumberChecker.answer _ "0123") with (Ok (A:=string) "4A0B").
    cbn iota. by rewrite play_loop_done.
Qed.

Lemma play_sound_witness :
  match play 3 "0123" GuessNumberAI.new with
  | None => True
  | Some (ai', out, printed) =>
      ∃ tried,
        out = Ok tried
        ∧ 1 ≤ tried ≤ 3
        ∧ length printed = tried
        ∧ last printed = Some (format_round tried "0123" "4A0B")
        ∧ "0123" ∈ _records ai'
        ∧ reachable ai'
  end
  ∧ ("0123" = "0123" → 1 ≤ 3 →
     ∃ ai', play 3 "0123" GuessNumberAI.new
            = Some (ai', Ok 1, [format_round 1 "0123" "4A0B"])).
Proof.
  apply (play_sound 3 "0123" GuessNumberAI.new); [apply reach_new|reflexivity..].
Defined.

(** ** The self test over a range of answers *)

Lemma play_capped_ok fuel secret ai :
  secret ∈ valid_numbers → reachable ai → 10 ≤ fuel →
  ∃ ai' tried out,
    _play fuel secret ai = Some (ai', Ok tried, out)
    ∧ 1 ≤ tried ≤ 10 ∧ reachable ai'.
Proof.
  intros Hsecret Hreach Hfuel.
  destruct (_play_loop_ok secret Hsecret fuel (initialize ai) None 0 [])
    as (ai' & tried & logs & printed & E & Ht & _ & _ & Hreach' & _);
    [split; [by constructor|done]|lia|lia|].
  unfold _play. rewrite E. eexists _, _, _. split; [done|]. split; [lia|done].
Qed.

Lemma games_played_length fuel ai numbers ai' tries :
  games_played fuel ai numbers ai' tries → length tries = length numbers.
Proof.
  induction 1 as [|? ? ? ? ? ? ? ? _ _ IH]; [done|]. cbn [length]. by rewrite IH.
Qed.

Lemma self_test_loop_ok fuel :
  10 ≤ fuel →
  ∀ numbers ai max_value printed,
    reachable ai → (∀ n, n ∈ numbers → n ∈ valid_numbers) →
    ∃ ai' m printed' tries,
      self_test_loop fuel numbers ai max_value printed = Some (ai', Ok m, printed')
      ∧ games_played fuel ai numbers ai' tries
      ∧ max_value ≤ m
      ∧ (∀ t, t ∈ tries → t ≤ m)
      ∧ (m = max_value ∨ m ∈ tries)
      ∧ (∀ t, t ∈ tries → 1 ≤ t ≤ 10)
      ∧ reachable ai'.
Proof.
  intros Hfuel.
  induction numbers as [|number numbers IH]; intros ai max_value printed Hreach Hn.
  - exists ai, max_value, printed, [].
    split; [reflexivity|]. split; [constructor|]. split; [lia|].
    split; [by intros t ?%elem_of_nil|]. split; [by left|].
    split; [by intros t ?%elem_of_nil|exact Hreach].
  - cbn [self_test_loop].
    destruct (play_capped_ok fuel number ai) as (ai1 & tried & out & E & Ht & Hreach1);
      [apply Hn; left|done|done|].
    rewrite E.
    destruct (IH ai1 (Nat.max max_value tried)
                (printed ++ out
                 ++ (if 7 <? tried
                     then ["Number " +:+ number +:+ " tried " +:+ str_of_nat tried
                           +:+ " times"]
                     else [])))
      as (ai' & m & printed' & tries & -> & Hgames & Hm & Hall & Hor & Hbounds & Hreach');
      [done|intros n Hin; apply Hn; by right|].
    exists ai', m, printed', (tried :: tries).
    split; [reflexivity|]. split; [by apply (games_more _ _ _ _ ai1 _ out)|].
    split; [lia|]. split.
    { intros t [->|Hin]%elem_of_cons; [lia|by apply Hall]. }
    split.
    { destruct Hor as [->|Hin]; [|right; by right].
      destruct (Nat.max_spec max_value tried) as [[_ ->]|[_ ->]];
        [right; left|by left]. }
    split; [|exact Hreach'].
    intros t [->|Hin]%elem_of_cons; [lia|by apply Hbounds].
Qed.

(** X14. [start_self_test] over a range [start, end) with [end <= 10000], on
    a reachable engine or on none (then on a new one), with fuel for 10
    rounds per game: it plays one game for every valid number of the
    range, in ascending order and each on the engine the game before left,
    without raising, and returns the largest of the numbers of tries of
    these games: no game took more tries, and when a game was played one
    of them took exactly that many.  The result is at most 10, and 0
    exactly when the range holds no valid number. *)
Theorem start_self_test_bounded
    (fuel start end_ : nat) (guess_number_ai : option GuessNumberAI.t) :
  10 ≤ fuel →
  end_ ≤ 10000 →
  (∀ ai, guess_number_ai = Some ai → reachable ai) →
  ∃ ai' max_value printed tries,
    start_self_test fuel start end_ guess_number_ai
    = Some (ai', Ok max_value, printed)
    ∧ games_played fuel
        (match guess_number_ai with Some ai => ai | None => GuessNumberAI.new end)
        (map format_04d
           (filter (λ i, GuessNumberAI.is_valid_answer (format_04d i) = true)
              (seq start (end_ - start))))
        ai' tries
    ∧ (∀ t, t ∈ tries → t ≤ max_value)
    ∧ (tries ≠ [] → max_value ∈ tries)
    ∧ (tries = [] → max_value = 0)
    ∧ max_value ≤ 10
    ∧ reachable ai'
    ∧ (max_value = 0 ↔
       ∀ i, start ≤ i < end_ → GuessNumberAI.is_valid_answer (format_04d i) = false).
Proof.
  intros Hfuel Hend Hai. unfold start_self_test.
  set (ai := match guess_number_ai with Some ai => ai | None => GuessNumberAI.new end).
  assert (reachable ai) as Hreach.
  { unfold ai. destruct guess_number_ai; [by apply Hai|apply reach_new]. }
  remember (filter (λ i, GuessNumberAI.is_valid_answer (format_04d i) = true)
              (seq start (end_ - start))) as valid_is eqn:Edef.
  assert (∀ i, i ∈ valid_is ↔
            GuessNumberAI.is_valid_answer (format_04d i) = true ∧ start ≤ i < end_)
    as His.
  { intros i. rewrite Edef, list_elem_of_filter, elem_of_seq.
    split; intros [Hv Hi]; (split; [exact Hv|lia]). }
  clear Edef.
  destruct (self_test_loop_ok fuel Hfuel (map format_04d valid_is) ai 0
              ["Size of test data " +:+ str_of_nat (length (map format_04d valid_is))
               +:+ " in range [ " +:+ str_of_nat start +:+ " , "
               +:+ str_of_nat end_ +:+ " )"])
    as (ai' & m & printed & tries & -> & Hgames & _ & Hall & Hor & Hbounds & Hreach');
    [done| |].
  { intros n (i & -> & [Hv Hi]%His)%list_elem_of_fmap.
    apply valid_numbers_elem; [|done]. apply Nat.ltb_lt. lia. }
  pose proof (games_played_length _ _ _ _ _ Hgames) as Hlen.
  rewrite length_map in Hlen.
  assert (tries ≠ [] → m ∈ tries) as Hin.
  { intros Hne. destruct Hor as [->|Hin]; [|exact Hin].
    destruct tries as [|t tries']; [done|].
    assert (1 ≤ t ≤ 10) as Ht by (apply Hbounds; left).
    assert (t ≤ 0) by (apply Hall; left). lia. }
  assert (tries = [] → m = 0) as Hnil.
  { intros ->. destruct Hor as [->|Hm]; [done|by apply elem_of_nil in Hm]. }
  assert (m ≤ 10) as Hten.
  { destruct Hor as [->|Hm]; [lia|]. apply Hbounds in Hm. lia. }
  eexists _, _, _, tries. split; [reflexivity|]. split; [exact Hgames|].
  split; [exact Hall|]. split; [exact Hin|]. split; [exact Hnil|].
  split; [exact Hten|]. split; [exact Hreach'|]. split.
  - intros ->. intros i Hi.
    destruct (GuessNumberAI.is_valid_answer (format_04d i)) eqn:Hv; [|done].
    assert (i ∈ valid_is) as Hiin by by apply His.
    destruct valid_is as [|j is']; [by apply elem_of_nil in Hiin|].
    destruct tries as [|t tries']; [discriminate Hlen|].
    assert (1 ≤ t ≤ 10) as Ht by (apply Hbounds; left).
    assert (t ≤ 0) by (apply Hall; left). lia.
  - intros Hnone. destruct valid_is as [|j is'].
    { apply Hnil. destruct tries; [done|discriminate Hlen]. }
    assert (j ∈ j :: is') as Hj by left.
    apply His in Hj as [Hv Hj]. rewrite (Hnone j Hj) in Hv. done.
Qed.

Lemma start_self_test_bounded_witness :
  ∃ ai' max_value printed tries,
    start_self_test 10 120 130 None = Some (ai', Ok max_value, printed)
    ∧ games_played 10 GuessNumberAI.new
        (map format_04d
           (filter (λ i, GuessNumberAI.is_valid_answer (format_04d i) = true)
              (seq 120 (130 - 120))))
        ai' tries
    ∧ (∀ t, t ∈ tries → t ≤ max_value)
    ∧ (tries ≠ [] → max_value ∈ tries)
    ∧ (tries = [] → max_value = 0)
    ∧ max_value ≤ 10
    ∧ reachable ai'
    ∧ (max_value = 0 ↔
       ∀ i, 120 ≤ i < 130 → GuessNumberAI.is_valid_answer (format_04d i) = false).
Proof.
  apply (start_self_test_bounded 10 120 130 None); [lia| |done].
  apply Nat.leb_le. vm_compute. reflexivity.
Defined.

(** ** The checker and the engine's check agree *)

(** X10. For two valid answers the checker's score is symmetric, and the
    engine's own [_check_result] accepts the secret for the feedback the
    checker gave to the engine's previous guess: the two sides count with
    the roles of guess and secret exchanged, which does not matter when
    neither repeats a character. *)
Theorem checker_and_check_agree
    (self : GuessNumberAI.t) (secret r : string) (a b : nat) :
  GuessNumberChecker.is_valid_answer secret = true →
  GuessNumberChecker.is_valid_answer (_previous self) = true →
  GuessNumberChecker.answer {| GuessNumberChecker._answer_number := secret |}
    (_previous self) = Ok r →
  parse_result r = Ok (a, b) →
  _check_result self secret a b = Ok true
  ∧ GuessNumberChecker.answer {| GuessNumberChecker._answer_number := _previous self |}
      secret = Ok r.
Proof.
  intros Hs Hp Hr Hparse.
  apply is_valid_answer_spec in Hs as (Hs4 & _ & Hsd).
  apply is_valid_answer_spec in Hp as (Hp4 & _ & Hpd).
  destruct (answer_ok secret (_previous self) Hp4 Hs4) as (a' & b' & E & _ & Hans & Hparse').
  rewrite Hans in Hr. injection Hr as <-.
  rewrite Hparse' in Hparse. injection Hparse as -> ->.
  rewrite count_ab_sym in E by done. split.
  - unfold _check_result. rewrite E. cbn. by rewrite !Nat.eqb_refl.
  - unfold GuessNumberChecker.answer. cbn [GuessNumberChecker._answer_number].
    by rewrite E.
Qed.

Lemma checker_and_check_agree_witness :
  _check_result opened "1234" 0 3 = Ok true
  ∧ GuessNumberChecker.answer {| GuessNumberChecker._answer_number := _previous opened |}
      "1234" = Ok "0A3B".
Proof.
  apply (checker_and_check_agree opened "1234" "0A3B" 0 3); reflexivity.
Defined.

(** ** Feedback outside the 5 x 5 grid *)

(** X6. On a reachable engine with a previous guess, a feedback string whose
    digits give a slot [a*5+b] of 25 or more (such as "5A0B") makes [guess]
    raise [IndexError] from the tree search, unless exactly one record is
    left; by then the Record Set has already been filtered, while the log,
    the previous guess and the tree are as before. *)
Theorem guess_out_of_grid (self : GuessNumberAI.t) (r : string) (a b : nat) :
  reachable self →
  four (_previous self) →
  parse_result r = Ok (a, b) →
  25 ≤ a * 5 + b →
  size (_records (filtered self a b)) ≠ 1 →
  guess self (Some r) = (filtered self a b, Raise IndexError).
Proof.
  intros Hok%reachable_ok Hp Hparse Hslot Hsize.
  pose proof (filter_record_filtered self a b (ok_records_four _ Hok) Hp) as Hfilter.
  unfold guess.
  by rewrite (guess_out_of_range _ _ _ _ _ Hok Hparse Hfilter Hsize Hslot).
Qed.

Lemma opened_5_0 : _records (filtered opened 5 0) = ∅.
Proof.
  apply set_eq. intros key. rewrite opened_filtered_elem. split; [|set_solver].
  intros [_ Hc%count_ab_bound]. lia.
Qed.

Lemma guess_out_of_grid_witness :
  guess opened (Some "5A0B") = (filtered opened 5 0, Raise IndexError).
Proof.
  apply (guess_out_of_grid opened "5A0B" 5 0).
  - apply reachable_opened.
  - reflexivity.
  - reflexivity.
  - lia.
  - rewrite opened_5_0, size_empty. lia.
Defined.

(** ** Bounds of the score *)

(** X11. For a candidate and records of four characters each,
    [_calculate_score] returns a number that is at most the size of the
    set of records, 0 when that set is empty and at least 1 otherwise; so
    every score is below the start value [1e5] of the scan whenever there
    are fewer than 100000 records. *)
Theorem calculate_score_bounds (self : GuessNumberAI.t) (number : string) :
  four number →
  (∀ key, key ∈ _records self → four key) →
  ∃ n, _calculate_score self number = Ok n
       ∧ n ≤ size (_records self)
       ∧ (_records self = ∅ → n = 0)
       ∧ (_records self ≠ ∅ → 1 ≤ n).
Proof.
  intros Hn Hr. exists (largest_bucket (_records self) number).
  split; [by apply calculate_score_spec|]. split; [apply largest_bucket_le|].
  split; [intros ->; apply largest_bucket_empty|].
  intros [key Hkey]%set_choose_L.
  destruct (count_ab_four number key Hn (Hr key Hkey)) as [ab E].
  pose proof (count_ab_slot _ _ _ E) as Hslot.
  assert (1 ≤ size (bucket (_records self) number (slot ab))) as Hone.
  { assert (size ({[ key ]} : gset string) = 1) as <- by apply size_singleton.
    apply subseteq_size. intros k ->%elem_of_singleton.
    apply elem_of_filter. split; [|done]. unfold bucket_index. by rewrite E. }
  etrans; [exact Hone|]. apply py_max_ge.
  apply list_elem_of_fmap. exists (slot ab). split; [done|].
  apply elem_of_seq. lia.
Qed.

Lemma calculate_score_bounds_witness :
  ∃ n, _calculate_score opened "4567" = Ok n
       ∧ n ≤ size (_records opened)
       ∧ (_records opened = ∅ → n = 0)
       ∧ (_records opened ≠ ∅ → 1 ≤ n).
Proof.
  apply (calculate_score_bounds opened "4567"); [reflexivity|].
  apply opened_records_four.
Defined.

(** ** What [guess] reads of the feedback string *)

(** X7. [guess] reads only the characters 0 and 2 of the feedback string:
    any string with a digit [a], any character, a digit [b] and anything
    after it is taken as feedback [(a, b)], exactly as "aAbB" is. *)
Theorem guess_reads_two_characters
    (self : GuessNumberAI.t) (a b : nat) (c : ascii) (rest : string) :
  a < 10 → b < 10 →
  parse_result (String (digit_char a) (String c (String (digit_char b) rest)))
  = Ok (a, b)
  ∧ guess self (Some (String (digit_char a) (String c (String (digit_char b) rest))))
    = guess self (Some (String (digit_char a) (String "A" (String (digit_char b) "B")))).
Proof.
  intros Ha Hb.
  assert (∀ c' rest', parse_result
            (String (digit_char a) (String c' (String (digit_char b) rest')))
          = Ok (a, b)) as Hparse.
  { intros c' rest'. unfold parse_result, getitem. cbn [String.get].
    do 10 (destruct a as [|a]; [do 10 (destruct b as [|b]; [reflexivity|]); lia|]).
    lia. }
  split; [apply Hparse|].
  unfold guess, guess_traced. by rewrite !Hparse.
Qed.

Lemma guess_reads_two_characters_witness :
  parse_result (String (digit_char 1) (String "x" (String (digit_char 2) "yz")))
  = Ok (1, 2)
  ∧ guess opened (Some (String (digit_char 1) (String "x" (String (digit_char 2) "yz"))))
    = guess opened (Some (String (digit_char 1) (String "A" (String (digit_char 2) "B")))).
Proof. apply (guess_reads_two_characters opened 1 2 "x" "yz"); lia. Defined.

(** ** The validity predicate on ASCII strings *)

(** X9. On a string of ASCII characters both copies of the validity
    predicate return [True] exactly when the string has four characters,
    all of them digits '0'-'9', no two of them equal. *)
Theorem is_valid_answer_on_ascii (s : string) :
  Forall (λ c, nat_of_ascii c < 128) (chars s) →
  (GuessNumberChecker.is_valid_answer s = true ↔
   String.length s = 4 ∧ all_digits s = true ∧ NoDup (chars s))
  ∧ (GuessNumberAI.is_valid_answer s = true ↔
     String.length s = 4 ∧ all_digits s = true ∧ NoDup (chars s)).
Proof. intros Hs. split; by apply is_valid_answer_ascii. Qed.

Lemma is_valid_answer_on_ascii_witness :
  (GuessNumberChecker.is_valid_answer "0987" = true ↔
   String.length "0987" = 4 ∧ all_digits "0987" = true ∧ NoDup (chars "0987"))
  ∧ (GuessNumberAI.is_valid_answer "0987" = true ↔
     String.length "0987" = 4 ∧ all_digits "0987" = true ∧ NoDup (chars "0987")).
Proof.
  apply (is_valid_answer_on_ascii "0987").
  unfold chars. cbn [list_ascii_of_string]. repeat constructor; cbn; lia.
Defined.
